(** * Classy Weather: a shallow embedding of [src/App.js]

    The file [App.js] holds two versions of the [App] component.  The first
    one (with the [LocalWeather] button) is called [V1] below, the second
    one [V2].  The helpers [getWeatherIcon], [convertToFlag], [WeatherList]
    and [Day] are the same in both.

    JavaScript strings are embedded as [string] holding their UTF-8 bytes.
    Character-level operations ([split], [charCodeAt], [toUpperCase])
    are embedded on the ASCII range, where one byte is one UTF-16 code
    unit; [js_length] counts UTF-16 code units of a UTF-8 string.
    JSON numbers other than weather codes are embedded as rationals. *)

From Stdlib Require Import String Ascii List Bool ZArith NArith QArith Qround Lia.
Import ListNotations.
Open Scope string_scope.
Open Scope Z_scope.

(** ** Helper functions of [App.js] *)

Module Helpers.

(** An array object.  [ref] is the identity of the object: [Map] compares keys
    that are objects by identity, not by contents. *)
Record jsarray := { ref : nat; elems : list Z }.

(** [Array.prototype.includes] on an array of numbers.  The argument is a
    number or [undefined] ([None]). *)
Definition includes (key : jsarray) (v : option Z) : bool :=
  match v with
  | Some z => existsb (Z.eqb z) (elems key)
  | None => false
  end.

(** [const icons = new Map([...])], lines 5-16. *)
Definition icons : list (jsarray * string) :=
  [ ({| ref := 0%nat; elems := [0] |}, "☀️");
    ({| ref := 1%nat; elems := [1] |}, "🌤");
    ({| ref := 2%nat; elems := [2] |}, "⛅️");
    ({| ref := 3%nat; elems := [3] |}, "☁️");
    ({| ref := 4%nat; elems := [45; 48] |}, "🌫");
    ({| ref := 5%nat; elems := [51; 56; 61; 66; 80] |}, "🌦");
    ({| ref := 6%nat; elems := [53; 55; 63; 65; 57; 67; 81; 82] |}, "🌧");
    ({| ref := 7%nat; elems := [71; 73; 75; 77; 85; 86] |}, "🌨");
    ({| ref := 8%nat; elems := [95] |}, "🌩");
    ({| ref := 9%nat; elems := [96; 99] |}, "⛈") ].

(** [icons.keys()] *)
Definition Map_keys (m : list (jsarray * string)) : list jsarray := map fst m.

(** [icons.get(arr)]: lookup by object identity; [None] is [undefined]. *)
Definition Map_get (m : list (jsarray * string)) (k : jsarray) : option string :=
  option_map snd (find (fun e => Nat.eqb (ref (fst e)) (ref k)) m).

(** [getWeatherIcon], lines 4-20.  The result is a string or [undefined]
    ([None], what [Map.get] gives for a key that is absent). *)
Definition getWeatherIcon (wmoCode : option Z) : option string :=
  match find (fun key => includes key wmoCode) (Map_keys icons) with
  | None => Some "NOT FOUND"
  | Some arr => Map_get icons arr
  end.

(** The number of UTF-16 code units of a string given by its UTF-8 bytes:
    continuation bytes count for nothing, the lead byte of a four-byte
    sequence for two (a surrogate pair). *)
Definition units_of_byte (c : ascii) : nat :=
  let n := N_of_ascii c in
  if (n <? 128)%N then 1%nat
  else if (n <? 192)%N then 0%nat
  else if (n <? 240)%N then 1%nat
  else 2%nat.

Fixpoint js_length (s : string) : nat :=
  match s with
  | EmptyString => 0%nat
  | String c r => (units_of_byte c + js_length r)%nat
  end.

(** [toUpperCase] on the ASCII range. *)
Definition upper_char (c : ascii) : ascii :=
  let n := N_of_ascii c in
  if ((97 <=? n) && (n <=? 122))%N then ascii_of_N (n - 32) else c.

Fixpoint toUpperCase (s : string) : string :=
  match s with
  | EmptyString => EmptyString
  | String c r => String (upper_char c) (toUpperCase r)
  end.

(** [s.split] with the empty separator: the characters of [s]. *)
Definition split_chars (s : string) : list ascii := list_ascii_of_string s.

(** [char.charCodeAt()] *)
Definition charCodeAt (c : ascii) : Z := Z.of_N (N_of_ascii c).

Definition byte_of (z : Z) : ascii := ascii_of_N (Z.to_N z).

(** The UTF-8 bytes of one code point. *)
Definition utf8 (cp : Z) : string :=
  if cp <? 128 then String (byte_of cp) ""
  else if cp <? 2048 then
    String (byte_of (192 + cp / 64)) (String (byte_of (128 + cp mod 64)) "")
  else if cp <? 65536 then
    String (byte_of (224 + cp / 4096))
      (String (byte_of (128 + (cp / 64) mod 64))
         (String (byte_of (128 + cp mod 64)) ""))
  else
    String (byte_of (240 + cp / 262144))
      (String (byte_of (128 + (cp / 4096) mod 64))
         (String (byte_of (128 + (cp / 64) mod 64))
            (String (byte_of (128 + cp mod 64)) ""))).

(** [String.fromCodePoint(...codePoints)]: a [RangeError] ([None]) when a
    code point is outside [0, 0x10FFFF]. *)
Fixpoint fromCodePoint (cps : list Z) : option string :=
  match cps with
  | [] => Some ""
  | cp :: rest =>
      if (cp <? 0) || (1114111 <? cp) then None
      else option_map (append (utf8 cp)) (fromCodePoint rest)
  end.

(** [convertToFlag], lines 22-28, for a country code of ASCII characters:
    there [toUpperCase], [split] and [charCodeAt] are the ones above.  A
    code with other characters is outside this embedding (its upper-casing
    follows the Unicode tables), and the properties below that depend on
    the characters are stated for ASCII codes. *)
Definition convertToFlag (countryCode : string) : option string :=
  let codePoints :=
    map (fun char => 127397 + charCodeAt char)
        (split_chars (toUpperCase countryCode)) in
  fromCodePoint codePoints.

(** [Array.prototype.at]: a negative index counts from the end, an index
    out of range gives [undefined] ([None]). *)
Definition at_ {A : Type} (l : list A) (i : Z) : option A :=
  let len := Z.of_nat (length l) in
  let k := if i <? 0 then len + i else i in
  if (k <? 0) || (len <=? k) then None else nth_error l (Z.to_nat k).

End Helpers.

Import Helpers.

(** ** Rendering: [WeatherList] and [Day] *)

Module Rendering.

Definition number := Q.

(** [weatherData.daily]: the four parallel arrays of the forecast. *)
Record Daily := {
  time : list string;
  weathercode : list Z;
  temperature_2m_max : list number;
  temperature_2m_min : list number
}.

(** The props [WeatherList] passes to one [Day]; [None] is [undefined]. *)
Record DayProps := {
  date : string;
  max : option number;
  min : option number;
  code : option Z;
  isToday : bool
}.

(** [dates.map((date, i) => ...)], with the index carried along. *)
Fixpoint map_index {A B : Type} (f : A -> nat -> B) (i : nat) (l : list A)
  : list B :=
  match l with
  | [] => []
  | a :: r => f a i :: map_index f (S i) r
  end.

(** [WeatherList], lines 159-198: the list of [Day] elements. *)
Definition WeatherList (weather : Daily) : list DayProps :=
  let max := temperature_2m_max weather in
  let min := temperature_2m_min weather in
  let dates := time weather in
  let codes := weathercode weather in
  map_index
    (fun date i =>
       {| date := date;
          max := at_ max (Z.of_nat i);
          min := at_ min (Z.of_nat i);
          code := at_ codes (Z.of_nat i);
          isToday := Nat.eqb i 0 |})
    0%nat dates.

(** The label of a day: ["Today"], or [formatDay(date)], which is left to
    [Intl.DateTimeFormat]. *)
Inductive DayLabel :=
| Today
| FormatDay (dateStr : string).

(** What one [Day] shows.  [icon] is [None] when [getWeatherIcon] gives
    [undefined]; a temperature is [None] when [Math.floor] or [Math.ceil]
    is applied to [undefined] and gives [NaN]. *)
Record DayView := {
  icon : option string;
  label : DayLabel;
  minText : option Z;
  maxText : option Z
}.

(** [Day], lines 200-212. *)
Definition Day (props : DayProps) : DayView :=
  {| icon := getWeatherIcon (code props);
     label := if isToday props then Today else FormatDay (date props);
     minText := option_map Qfloor (min props);
     maxText := option_map Qceiling (max props) |}.

End Rendering.

Import Rendering.

(** ** The request chains and the state of [App] *)

Module Model.

(** The two versions of [App] in the file. *)
Inductive Version := V1 | V2.

(** A field of a JSON body that need not be there: [undefined] when the
    field is absent, [null], or a value. *)
Inductive Js (A : Type) :=
| Undefined
| Null
| Val (a : A).

Arguments Undefined {A}.
Arguments Null {A}.
Arguments Val {A} a.

(** One entry of [geoData.results].  Any of its fields may be missing; the
    country code is the one the code dereferences. *)
Record GeoResult := {
  latitude : Js number;
  longitude : Js number;
  timezone : Js string;
  name : Js string;
  country_code : Js string
}.

(** The body of the geocoding response; [results] is [None] when the field
    is absent ([undefined]). *)
Record GeoData := { results : option (list GeoResult) }.

Record WeatherData := { daily : Daily }.

(** The body of the timezone lookup of [LocalWeather]. *)
Record TimezoneData := { timezoneId : Js string; countryCode : Js string }.

(** The body of the reverse lookup of [LocalWeather]. *)
Record Address := { town : Js string; county : Js string }.
Record LocationNameData := { address : Js Address }.

(** A thrown value: [err.name] and [err.message]. *)
Record JsError := { err_name : string; err_message : string }.

Definition Error (message : string) : JsError :=
  {| err_name := "Error"; err_message := message |}.

(** What [fetch] rejects with when its signal is aborted. *)
Definition AbortError (message : string) : JsError :=
  {| err_name := "AbortError"; err_message := message |}.

(** The [TypeError] of destructuring [undefined] at lines 71-77; the text of
    the message belongs to the engine (here V8's). *)
Definition destructure_undefined : JsError :=
  {| err_name := "TypeError";
     err_message :=
       "Cannot destructure property 'latitude' of 'geoData.results.at(...)' as it is undefined." |}.

(** The [RangeError] of [String.fromCodePoint]. *)
Definition invalid_code_point : JsError :=
  {| err_name := "RangeError"; err_message := "Invalid code point" |}.

(** The [TypeError] of reading the property [prop] of [undefined] or of
    [null]; the text of the message belongs to the engine (here V8's). *)
Definition cannot_read (what prop : string) : JsError :=
  {| err_name := "TypeError";
     err_message :=
       "Cannot read properties of " ++ what ++ " (reading '" ++ prop ++ "')" |}.

(** The call [convertToFlag(countryCode)] with a country code that may be
    missing: line 24 calls [countryCode.toUpperCase()], which throws a
    [TypeError] on [undefined] and on [null]. *)
Definition call_convertToFlag (countryCode : Js string) : JsError + string :=
  match countryCode with
  | Val code =>
      match convertToFlag code with
      | Some flag => inr flag
      | None => inl invalid_code_point
      end
  | Undefined => inl (cannot_read "undefined" "toUpperCase")
  | Null => inl (cannot_read "null" "toUpperCase")
  end.

(** A value inside a template literal. *)
Definition to_string (x : Js string) : string :=
  match x with
  | Val s => s
  | Null => "null"
  | Undefined => "undefined"
  end.

(** [a ?? b] *)
Definition nullish {A : Type} (a b : Js A) : Js A :=
  match a with
  | Val _ => a
  | _ => b
  end.

(** The network calls.  The forecast URL is a template literal, into which
    a missing coordinate or timezone goes as the text [undefined]. *)
Inductive Request :=
| GeoSearch (name : string)
| Forecast (lat lon : Js number) (tz : Js string)
| TimeByCoordinate (lat lng : number)
| ReverseGeocode (lat lng : number).

(** The effects on the outside world, in the order they happen. *)
Inductive Effect :=
| SetItem (key value : string)
| Fetch (r : Request).

(** What an awaited promise is settled with. *)
Inductive Payload :=
| Response (ok : bool)
| GeoJson (d : GeoData)
| WeatherJson (d : WeatherData)
| TimezoneJson (d : TimezoneData)
| LocationNameJson (d : LocationNameData).

Inductive Settled :=
| Fulfilled (v : Payload)
| Rejected (e : JsError).

(** Where a call of [fetchWeatherData] is suspended. *)
Inductive Pc :=
| AwaitGeoRes        (* line 55 *)
| AwaitGeoData       (* line 66 *)
| AwaitWeatherRes    (* line 83 *)
| AwaitWeatherData   (* line 94 *)
| Finished.

(** One run of the effect of lines 47-121 that called [fetchWeatherData]:
    the value of [search] it closed over, its two abort controllers and
    the point where it is suspended.  The position of a chain in [chains]
    is its generation. *)
Record Chain := {
  c_search : string;
  geoAborted : bool;
  weatherAborted : bool;
  pc : Pc
}.

(** Where a call of [getCurrentPosition] is suspended. *)
Inductive LPc :=
| AwaitTimezoneRes                             (* line 228 *)
| AwaitTimezoneData                            (* line 236 *)
| AwaitLocationNameRes (tz : TimezoneData)     (* line 238 *)
| AwaitLocationNameData (tz : TimezoneData)    (* line 247 *)
| AwaitLocalWeatherRes                         (* line 256 *)
| AwaitLocalWeatherData                        (* line 266 *)
| LFinished.

(** One call of [getCurrentPosition] that went past line 224: the instance
    of [LocalWeather] it belongs to, its coordinates and where it is
    suspended.  It has no abort controller. *)
Record LChain := {
  l_inst : nat;
  l_lat : number;
  l_lng : number;
  lpc : LPc
}.

(** A mounted instance of [LocalWeather]: its own [isLoading] and the
    position last given by [useGeolocation]. *)
Record LocalWeatherInst := {
  inst_id : nat;
  l_isLoading : bool;
  lat : option number;
  lng : option number
}.

(** The state of [App] (lines 37-41), [localStorage], the effects so far,
    the request chains and the cleanup function of the last effect run. *)
Record World := {
  search : string;
  displayLocation : string;
  isLoading : bool;
  weather : option Daily;          (* [None] is the empty object *)
  error : string;
  storage : option string;         (* [localStorage.getItem("location")] *)
  log : list Effect;               (* oldest first *)
  chains : list Chain;
  cleanup : option nat;            (* the generation the cleanup aborts *)
  localWeather : option LocalWeatherInst;
  lchains : list LChain;
  nextInst : nat
}.

(** Field updates of [World]. *)

Definition set_search (x : string) (w : World) : World :=
  {| search := x; displayLocation := displayLocation w;
     isLoading := isLoading w; weather := weather w; error := error w;
     storage := storage w; log := log w; chains := chains w;
     cleanup := cleanup w; localWeather := localWeather w;
     lchains := lchains w; nextInst := nextInst w |}.

Definition set_displayLocation (x : string) (w : World) : World :=
  {| search := search w; displayLocation := x; isLoading := isLoading w;
     weather := weather w; error := error w; storage := storage w;
     log := log w; chains := chains w; cleanup := cleanup w;
     localWeather := localWeather w; lchains := lchains w;
     nextInst := nextInst w |}.

Definition set_isLoading (x : bool) (w : World) : World :=
  {| search := search w; displayLocation := displayLocation w;
     isLoading := x; weather := weather w; error := error w;
     storage := storage w; log := log w; chains := chains w;
     cleanup := cleanup w; localWeather := localWeather w;
     lchains := lchains w; nextInst := nextInst w |}.

Definition set_weather (x : option Daily) (w : World) : World :=
  {| search := search w; displayLocation := displayLocation w;
     isLoading := isLoading w; weather := x; error := error w;
     storage := storage w; log := log w; chains := chains w;
     cleanup := cleanup w; localWeather := localWeather w;
     lchains := lchains w; nextInst := nextInst w |}.

Definition set_error (x : string) (w : World) : World :=
  {| search := search w; displayLocation := displayLocation w;
     isLoading := isLoading w; weather := weather w; error := x;
     storage := storage w; log := log w; chains := chains w;
     cleanup := cleanup w; localWeather := localWeather w;
     lchains := lchains w; nextInst := nextInst w |}.

Definition set_storage (x : option string) (w : World) : World :=
  {| search := search w; displayLocation := displayLocation w;
     isLoading := isLoading w; weather := weather w; error := error w;
     storage := x; log := log w; chains := chains w; cleanup := cleanup w;
     localWeather := localWeather w; lchains := lchains w;
     nextInst := nextInst w |}.

Definition set_log (x : list Effect) (w : World) : World :=
  {| search := search w; displayLocation := displayLocation w;
     isLoading := isLoading w; weather := weather w; error := error w;
     storage := storage w; log := x; chains := chains w;
     cleanup := cleanup w; localWeather := localWeather w;
     lchains := lchains w; nextInst := nextInst w |}.

Definition set_chains (x : list Chain) (w : World) : World :=
  {| search := search w; displayLocation := displayLocation w;
     isLoading := isLoading w; weather := weather w; error := error w;
     storage := storage w; log := log w; chains := x; cleanup := cleanup w;
     localWeather := localWeather w; lchains := lchains w;
     nextInst := nextInst w |}.

Definition set_cleanup (x : option nat) (w : World) : World :=
  {| search := search w; displayLocation := displayLocation w;
     isLoading := isLoading w; weather := weather w; error := error w;
     storage := storage w; log := log w; chains := chains w; cleanup := x;
     localWeather := localWeather w; lchains := lchains w;
     nextInst := nextInst w |}.

Definition set_localWeather (x : option LocalWeatherInst) (w : World) : World :=
  {| search := search w; displayLocation := displayLocation w;
     isLoading := isLoading w; weather := weather w; error := error w;
     storage := storage w; log := log w; chains := chains w;
     cleanup := cleanup w; localWeather := x; lchains := lchains w;
     nextInst := nextInst w |}.

Definition set_lchains (x : list LChain) (w : World) : World :=
  {| search := search w; displayLocation := displayLocation w;
     isLoading := isLoading w; weather := weather w; error := error w;
     storage := storage w; log := log w; chains := chains w;
     cleanup := cleanup w; localWeather := localWeather w; lchains := x;
     nextInst := nextInst w |}.

Definition set_nextInst (x : nat) (w : World) : World :=
  {| search := search w; displayLocation := displayLocation w;
     isLoading := isLoading w; weather := weather w; error := error w;
     storage := storage w; log := log w; chains := chains w;
     cleanup := cleanup w; localWeather := localWeather w;
     lchains := lchains w; nextInst := x |}.

(** *** The setters of [useState] and the outside world *)

Definition setError := set_error.
Definition setIsLoading := set_isLoading.
Definition setWeather := set_weather.
Definition setDisplayLocation := set_displayLocation.

(** [localStorage.setItem(key, value)]; the only key read back is
    ["location"]. *)
Definition localStorage_setItem (key value : string) (w : World) : World :=
  let w := set_log (log w ++ [SetItem key value]) w in
  if String.eqb key "location" then set_storage (Some value) w else w.

(** The stored query read at line 44, or the empty string when there is
    none. *)
Definition restored_search (w : World) : string :=
  match storage w with
  | Some s => s
  | None => ""
  end.

(** [fetch(url, ...)]: the call is issued; its promise is settled later by
    the environment. *)
Definition fetch (r : Request) (w : World) : World :=
  set_log (log w ++ [Fetch r]) w.

Fixpoint update_nth {A : Type} (n : nat) (f : A -> A) (l : list A) : list A :=
  match l, n with
  | [], _ => []
  | a :: r, O => f a :: r
  | a :: r, S m => a :: update_nth m f r
  end.

Definition set_pc (p : Pc) (c : Chain) : Chain :=
  {| c_search := c_search c; geoAborted := geoAborted c;
     weatherAborted := weatherAborted c; pc := p |}.

(** [geoController.abort(); weatherController.abort()], lines 116-117. *)
Definition abort (c : Chain) : Chain :=
  {| c_search := c_search c; geoAborted := true;
     weatherAborted := true; pc := pc c |}.

Definition goto (g : nat) (p : Pc) (w : World) : World :=
  set_chains (update_nth g (set_pc p) (chains w)) w.

(** *** [fetchWeatherData], lines 51-103 *)

(** The call at line 113, up to the first [await]. *)
Definition fetchWeatherData (w : World) : World :=
  let w := setError "" w in
  let w := setIsLoading true w in
  let w := fetch (GeoSearch (search w)) w in
  set_chains
    (chains w ++ [{| c_search := search w; geoAborted := false;
                     weatherAborted := false; pc := AwaitGeoRes |}]) w.

(** [catch] and [finally], lines 96-102. *)
Definition catch_finally (g : nat) (err : JsError) (w : World) : World :=
  let w := if String.eqb (err_name err) "AbortError" then w
           else setError (err_message err) w in
  let w := setIsLoading false w in
  goto g Finished w.

(** The continuation of generation [g] when the promise it awaits is
    settled with [x].  Nothing here looks at the generation or at the
    abort controllers.  A settlement of the wrong kind for the [await]
    (the environment never sends one) is ignored. *)
Definition resume (g : nat) (x : Settled) (w : World) : World :=
  match nth_error (chains w) g with
  | None => w
  | Some c =>
      match pc c, x with
      | Finished, _ => w
      | _, Rejected err => catch_finally g err w
      | AwaitGeoRes, Fulfilled (Response ok) =>
          if negb ok then
            catch_finally g
              (Error "Something went wrong with fetching geolocation") w
          else goto g AwaitGeoData w
      | AwaitGeoData, Fulfilled (GeoJson geoData) =>
          match results geoData with
          | None => catch_finally g (Error "Location not found") w
          | Some rs =>
              match at_ rs 0 with
              | None => catch_finally g destructure_undefined w
              | Some r =>
                  match call_convertToFlag (country_code r) with
                  | inl err => catch_finally g err w
                  | inr flag =>
                      let w :=
                        setDisplayLocation
                          (to_string (name r) ++ " " ++ flag) w in
                      let w :=
                        fetch (Forecast (latitude r) (longitude r) (timezone r))
                              w in
                      goto g AwaitWeatherRes w
                  end
              end
          end
      | AwaitWeatherRes, Fulfilled (Response ok) =>
          if negb ok then
            catch_finally g (Error "Something went wrong with fetching weather")
                          w
          else goto g AwaitWeatherData w
      | AwaitWeatherData, Fulfilled (WeatherJson weatherData) =>
          let w := setWeather (Some (daily weatherData)) w in
          let w := setIsLoading false w in
          goto g Finished w
      | _, _ => w
      end
  end.

(** *** The effect of [App] on [search], lines 47-121 and 345-418 *)

(** The cleanup function returned by the previous run of the effect, if it
    returned one. *)
Definition run_cleanup (w : World) : World :=
  match cleanup w with
  | None => w
  | Some g => set_cleanup None (set_chains (update_nth g abort (chains w)) w)
  end.

(** The body of the effect. *)
Definition effect (v : Version) (w : World) : World :=
  match v with
  | V1 =>
      let w := localStorage_setItem "location" (search w) w in
      if (js_length (search w) <? 2)%nat then
        let w := setError "" w in
        let w := setWeather None w in
        set_cleanup None w
      else
        let g := length (chains w) in
        let w := fetchWeatherData w in
        set_cleanup (Some g) w
  | V2 =>
      if (js_length (search w) <? 2)%nat then
        let w := setError "" w in
        let w := setWeather None w in
        set_cleanup None w
      else
        let g := length (chains w) in
        let w := fetchWeatherData w in
        let w := localStorage_setItem "location" (search w) w in
        set_cleanup (Some g) w
  end.

(** A change of [search] to [newQuery]: the new render, the cleanup of the
    previous effect run, then the effect. *)
Definition onQueryChange (v : Version) (newQuery : string) (w : World)
  : World :=
  effect v (run_cleanup (set_search newQuery w)).

(** *** [LocalWeather], lines 214-291 *)

(** [!lat], for a number or [undefined]. *)
Definition falsy_number (x : option number) : bool :=
  match x with
  | None => true
  | Some q => Qeq_bool q 0
  end.

(** The [setIsLoading] of the instance [i] of [LocalWeather]; it does
    nothing once that instance is unmounted. *)
Definition setLocalIsLoading (i : nat) (b : bool) (w : World) : World :=
  match localWeather w with
  | Some inst =>
      if Nat.eqb (inst_id inst) i then
        set_localWeather
          (Some {| inst_id := inst_id inst; l_isLoading := b;
                   lat := lat inst; lng := lng inst |}) w
      else w
  | None => w
  end.

Definition set_lpc (p : LPc) (c : LChain) : LChain :=
  {| l_inst := l_inst c; l_lat := l_lat c; l_lng := l_lng c; lpc := p |}.

Definition lgoto (g : nat) (p : LPc) (w : World) : World :=
  set_lchains (update_nth g (set_lpc p) (lchains w)) w.

(** The call of [getCurrentPosition] at line 275, up to the first
    [await]. *)
Definition getCurrentPosition (inst : LocalWeatherInst) (w : World) : World :=
  if falsy_number (lat inst) || falsy_number (lng inst) then w
  else
    match lat inst, lng inst with
    | Some la, Some ln =>
        let w := setError "" w in
        let w := setLocalIsLoading (inst_id inst) true w in
        let w := fetch (TimeByCoordinate la ln) w in
        set_lchains
          (lchains w ++ [{| l_inst := inst_id inst; l_lat := la; l_lng := ln;
                            lpc := AwaitTimezoneRes |}]) w
    | _, _ => w
    end.

(** [catch] and [finally], lines 268-272: every error is shown. *)
Definition local_catch_finally (g : nat) (i : nat) (err : JsError) (w : World)
  : World :=
  let w := setError (err_message err) w in
  let w := setLocalIsLoading i false w in
  lgoto g LFinished w.

(** [locationNameData.address.town ?? locationNameData.address.county]
    inside the template literal.  Reading [town] throws a [TypeError] when
    the body has no [address]. *)
Definition place_name (d : LocationNameData) : JsError + string :=
  match address d with
  | Val a => inr (to_string (nullish (town a) (county a)))
  | Undefined => inl (cannot_read "undefined" "town")
  | Null => inl (cannot_read "null" "town")
  end.

(** The continuation of the [g]-th call of [getCurrentPosition]. *)
Definition local_resume (g : nat) (x : Settled) (w : World) : World :=
  match nth_error (lchains w) g with
  | None => w
  | Some c =>
      let i := l_inst c in
      match lpc c, x with
      | LFinished, _ => w
      | _, Rejected err => local_catch_finally g i err w
      | AwaitTimezoneRes, Fulfilled (Response ok) =>
          if negb ok then
            local_catch_finally g i
              (Error "Something went wrong with fetching the current timezone")
              w
          else lgoto g AwaitTimezoneData w
      | AwaitTimezoneData, Fulfilled (TimezoneJson timezoneData) =>
          let w := fetch (ReverseGeocode (l_lat c) (l_lng c)) w in
          lgoto g (AwaitLocationNameRes timezoneData) w
      | AwaitLocationNameRes tz, Fulfilled (Response ok) =>
          if negb ok then
            local_catch_finally g i
              (Error
                 "Something went wrong with fetching the current location data")
              w
          else lgoto g (AwaitLocationNameData tz) w
      | AwaitLocationNameData tz, Fulfilled (LocationNameJson d) =>
          match place_name d with
          | inl err => local_catch_finally g i err w
          | inr place =>
              match call_convertToFlag (countryCode tz) with
              | inl err => local_catch_finally g i err w
              | inr flag =>
                  let w := setDisplayLocation (place ++ " " ++ flag) w in
                  let w :=
                    fetch (Forecast (Val (l_lat c)) (Val (l_lng c))
                                    (timezoneId tz)) w in
                  lgoto g AwaitLocalWeatherRes w
              end
          end
      | AwaitLocalWeatherRes, Fulfilled (Response ok) =>
          if negb ok then
            local_catch_finally g i
              (Error "Something went wrong with fetching weather") w
          else lgoto g AwaitLocalWeatherData w
      | AwaitLocalWeatherData, Fulfilled (WeatherJson weatherData) =>
          let w := setWeather (Some (daily weatherData)) w in
          let w := setLocalIsLoading i false w in
          lgoto g LFinished w
      | _, _ => w
      end
  end.

(** [Object.is] on the dependencies [lat] and [lng]. *)
Definition same_number (a b : option number) : bool :=
  match a, b with
  | None, None => true
  | Some x, Some y => Qeq_bool x y
  | _, _ => false
  end.

(** [useGeolocation] gives a new [position]: the effect of lines 219-278
    runs again when [lat] or [lng] changed. *)
Definition setPosition (la ln : option number) (w : World) : World :=
  match localWeather w with
  | None => w
  | Some inst =>
      let inst' := {| inst_id := inst_id inst; l_isLoading := l_isLoading inst;
                      lat := la; lng := ln |} in
      let w := set_localWeather (Some inst') w in
      if same_number (lat inst) la && same_number (lng inst) ln then w
      else getCurrentPosition inst' w
  end.

(** *** What [App] renders, lines 123-145 and 420-434 *)

Definition truthy (s : string) : bool := negb (String.eqb s "").

(** [weather.weathercode], as a condition: an array is truthy, the field of
    the empty object is [undefined]. *)
Definition has_weathercode (w : World) : bool :=
  match weather w with
  | Some _ => true
  | None => false
  end.

Record View := {
  loader : bool;
  errorMessage : option string;
  localWeatherButton : bool;
  weatherList : option (string * list DayView)
}.

Definition render (v : Version) (w : World) : View :=
  {| loader := isLoading w && negb (truthy (error w));
     errorMessage := if truthy (error w) then Some (error w) else None;
     localWeatherButton :=
       match v with
       | V1 => negb (isLoading w) && negb (truthy (error w))
               && negb (has_weathercode w)
       | V2 => false
       end;
     weatherList :=
       match weather w with
       | Some d =>
           if negb (truthy (error w)) && negb (isLoading w)
           then Some (displayLocation w, map Day (WeatherList d))
           else None
       | None => None
       end |}.

(** [LocalWeather] is mounted while [App] renders it.  A new instance starts
    with [isLoading] false and a position without coordinates, for which
    [getCurrentPosition] returns at line 223. *)
Definition reconcile (v : Version) (w : World) : World :=
  if localWeatherButton (render v w) then
    match localWeather w with
    | Some _ => w
    | None =>
        set_nextInst (S (nextInst w))
          (set_localWeather
             (Some {| inst_id := nextInst w; l_isLoading := false;
                      lat := None; lng := None |}) w)
    end
  else set_localWeather None w.

(** *** Events and runs *)

Inductive Event :=
| SetSearch (s : string)                  (* typing, or the restored query *)
| Settle (g : nat) (x : Settled)          (* a promise of [fetchWeatherData] *)
| SetPosition (la ln : option number)     (* [useGeolocation] *)
| LocalSettle (g : nat) (x : Settled).    (* a promise of [getCurrentPosition] *)

Definition step (v : Version) (w : World) (ev : Event) : World :=
  reconcile v
    match ev with
    | SetSearch s =>
        if String.eqb s (search w) then w else onQueryChange v s w
    | Settle g x => resume g x w
    | SetPosition la ln => setPosition la ln w
    | LocalSettle g x => local_resume g x w
    end.

Definition run (v : Version) (w : World) (evs : list Event) : World :=
  fold_left (step v) evs w.

(** The state before the first render, with the stored query [st]. *)
Definition init (st : option string) : World :=
  {| search := ""; displayLocation := ""; isLoading := false;
     weather := None; error := ""; storage := st; log := [];
     chains := []; cleanup := None; localWeather := None; lchains := [];
     nextInst := 0%nat |}.

(** Mounting [App]: the effect of line 43 reads the stored query, the
    effect on [search] runs with the empty query, then the restored query
    is rendered. *)
Definition mount (v : Version) (st : option string) : World :=
  let w0 := init st in
  let restored := restored_search w0 in
  let w1 := reconcile v (effect v w0) in
  step v w1 (SetSearch restored).

(** *** Generations and the abort signal *)

(** The generation whose controllers the next cleanup will abort: the one
    of the current request chain. *)
Definition current (w : World) : option nat := cleanup w.

(** The controller whose signal was given to the call a chain awaits. *)
Definition pending_aborted (c : Chain) : bool :=
  match pc c with
  | AwaitGeoRes | AwaitGeoData => geoAborted c
  | AwaitWeatherRes | AwaitWeatherData => weatherAborted c
  | Finished => false
  end.

Definition is_abort (x : Settled) : bool :=
  match x with
  | Rejected err => String.eqb (err_name err) "AbortError"
  | Fulfilled _ => false
  end.

(** The settlement [x] of generation [g] is one where the abort signal was
    observed: a call whose signal is aborted is rejected with an
    [AbortError]. *)
Definition abort_observed (w : World) (g : nat) (x : Settled) : bool :=
  match nth_error (chains w) g with
  | Some c => if pending_aborted c then is_abort x else true
  | None => true
  end.

(** What the rest of the program sees of a request chain's outcome. *)
Definition outcome (w : World) : option Daily * string * string :=
  (weather w, displayLocation w, error w).

(** The events that reject the awaited calls of the given generations
    with an [AbortError]. *)
Definition cancellations (cancelled : list (nat * string)) : list Event :=
  map (fun gm => Settle (fst gm) (Rejected (AbortError (snd gm)))) cancelled.

Definition abort_flags (c : Chain) : bool * bool :=
  (geoAborted c, weatherAborted c).

(** Every generation but the current one has had both its controllers
    aborted. *)
Definition superseded_aborted (w : World) : Prop :=
  forall g c,
    nth_error (chains w) g = Some c ->
    current w <> Some g ->
    abort_flags c = (true, true).

End Model.

Import Model.

(** ** Notions the specification uses and the code does not *)

Module Spec.

(** ASCII white space, as removed by [trim]. *)
Definition is_space (c : ascii) : bool :=
  let n := N_of_ascii c in
  ((n =? 32) || ((9 <=? n) && (n <=? 13)))%N.

Fixpoint trim_start (s : string) : string :=
  match s with
  | EmptyString => EmptyString
  | String c r => if is_space c then trim_start r else s
  end.

Fixpoint trim_end (s : string) : string :=
  match s with
  | EmptyString => EmptyString
  | String c r =>
      match trim_end r with
      | EmptyString => if is_space c then EmptyString else String c EmptyString
      | r' => String c r'
      end
  end.

(** The query with the white space at both ends removed. *)
Definition trim (s : string) : string := trim_end (trim_start s).

(** The trimmed length of a query. *)
Definition trimmed_length (s : string) : nat := js_length (trim s).

(** A letter of a country code. *)
Definition is_letter (c : ascii) : bool :=
  let n := N_of_ascii c in
  (((65 <=? n) && (n <=? 90)) || ((97 <=? n) && (n <=? 122)))%N.

(** The regional indicator symbol of an upper-case letter: U+1F1E6 for A,
    up to U+1F1FF for Z. *)
Definition regional_indicator (c : ascii) : option Z :=
  let n := N_of_ascii c in
  if ((65 <=? n) && (n <=? 90))%N then Some (127462 + (Z.of_N n - 65))
  else None.

(** The flag of an upper-case country code: the regional indicator symbols
    of its letters, one after the other. *)
Fixpoint regional_flag (s : string) : option string :=
  match s with
  | EmptyString => Some EmptyString
  | String c r =>
      match regional_indicator c, regional_flag r with
      | Some cp, Some rest => Some (utf8 cp ++ rest)
      | _, _ => None
      end
  end.

(** The network calls among the effects so far. *)
Fixpoint requests (l : list Effect) : list Request :=
  match l with
  | [] => []
  | Fetch r :: rest => r :: requests rest
  | SetItem _ _ :: rest => requests rest
  end.

End Spec.

Import Spec.

(** ** Sample data *)

Module Samples.

Definition paris : GeoResult :=
  {| latitude := Val 48.8566%Q; longitude := Val 2.3522%Q;
     timezone := Val "Europe/Paris"; name := Val "Paris";
     country_code := Val "FR" |}.

Definition pau : GeoResult :=
  {| latitude := Val 43.3%Q; longitude := Val (-0.3667)%Q;
     timezone := Val "Europe/Paris"; name := Val "Pau";
     country_code := Val "FR" |}.

Definition two_days : Daily :=
  {| time := ["2024-01-01"; "2024-01-02"];
     weathercode := [0; 3];
     temperature_2m_max := [10.4%Q; 8.1%Q];
     temperature_2m_min := [2.2%Q; (-1.9)%Q] |}.

(** A forecast whose temperature and code arrays are shorter than its
    dates. *)
Definition ragged : Daily :=
  {| time := ["2024-01-01"; "2024-01-02"];
     weathercode := [0];
     temperature_2m_max := [10.4%Q];
     temperature_2m_min := [] |}.

Definition ok : Settled := Fulfilled (Response true).
Definition not_ok : Settled := Fulfilled (Response false).

Definition berlin_tz : TimezoneData :=
  {| timezoneId := Val "Europe/Berlin"; countryCode := Val "DE" |}.

Definition berlin_name : LocationNameData :=
  {| address := Val {| town := Val "Berlin"; county := Undefined |} |}.

(** [App] mounted with the stored query ["Berlin"]: generation 0 awaits the
    geocoding response. *)
Definition berlin_loading (v : Version) : World := mount v (Some "Berlin").

(** Generation 0 awaits the forecast response. *)
Definition forecast_loading (v : Version) : World :=
  run v (mount v (Some "Pa"))
      [Settle 0 ok; Settle 0 (Fulfilled (GeoJson {| results := Some [pau] |}))].

(** Query ["Pa"], whose chain has its forecast response and reads the
    body; then the query becomes ["Paris"]. *)
Definition pa_then_paris (v : Version) : World :=
  run v (forecast_loading v) [Settle 0 ok; SetSearch "Paris"].

(** The button is shown, a position arrives, then the user types. *)
Definition located_then_typed : World :=
  run V1 (mount V1 None)
      [SetPosition (Some 52.52%Q) (Some 13.405%Q); SetSearch "Paris"].

End Samples.

Import Samples.

(** ** Observations on views, logs and runs *)

Module Observations.

(** How many of the four alternatives of the JSX of [App] are rendered. *)
Definition shown (view : View) : nat :=
  ((if loader view then 1 else 0)
   + (match errorMessage view with Some _ => 1 | None => 0 end)
   + (if localWeatherButton view then 1 else 0)
   + (match weatherList view with Some _ => 1 | None => 0 end))%nat.

(** The values given to [localStorage.setItem], oldest first. *)
Fixpoint stored_values (l : list Effect) : list (string * string) :=
  match l with
  | [] => []
  | SetItem key value :: rest => (key, value) :: stored_values rest
  | Fetch _ :: rest => stored_values rest
  end.

(** The number of geocoding calls among the network calls. *)
Fixpoint geo_searches (l : list Request) : nat :=
  match l with
  | [] => 0%nat
  | GeoSearch _ :: rest => S (geo_searches rest)
  | _ :: rest => geo_searches rest
  end.



(** Every chain has both its controllers aborted, except possibly one whose
    controllers are both untouched: the current generation, which is the
    chain started last. *)
Definition one_live_generation (w : World) : Prop :=
  forall g c,
    nth_error (chains w) g = Some c ->
    abort_flags c = (true, true)
    \/ (abort_flags c = (false, false)
        /\ current w = Some g
        /\ S g = length (chains w)).

(** What a run of the effect on [search] adds to the log. *)
Definition effect_log (v : Version) (s : string) : list Effect :=
  match v, (js_length s <? 2)%nat with
  | V1, true => [SetItem "location" s]
  | V1, false => [SetItem "location" s; Fetch (GeoSearch s)]
  | V2, true => []
  | V2, false => [Fetch (GeoSearch s); SetItem "location" s]
  end.

(** Every character of the string is an ASCII character. *)
Definition ascii_only (s : string) : bool :=
  forallb (fun c => (N_of_ascii c <? 128)%N) (list_ascii_of_string s).

(** The settlements [l] of calls of [fetchWeatherData], delivered one
    after the other from the state [w]: each belongs to a generation that
    is not the current one when it is delivered, and each observes the
    abort signal. *)
Fixpoint cancelled_settlements (v : Version) (w : World)
  (l : list (nat * Settled)) : Prop :=
  match l with
  | [] => True
  | gx :: rest =>
      current w <> Some (fst gx)
      /\ abort_observed w (fst gx) (snd gx) = true
      /\ cancelled_settlements v (step v w (Settle (fst gx) (snd gx))) rest
  end.

Definition settle_all (l : list (nat * Settled)) : list Event :=
  map (fun gx => Settle (fst gx) (snd gx)) l.

End Observations.

Import Observations.

(** ** Properties of the helpers *)

Example getWeatherIcon_45 : getWeatherIcon (Some 45) = Some "🌫".
Proof. reflexivity. Qed.

Example convertToFlag_de : convertToFlag "de" = Some "🇩🇪".
Proof. reflexivity. Qed.

Example js_length_flag : js_length "🇩🇪" = 4%nat.
Proof. reflexivity. Qed.

Lemma includes_In (key : jsarray) (code : Z) :
  includes key (Some code) = true <-> In code (elems key).
Proof.
  unfold includes. rewrite existsb_exists. split.
  - intros [z [Hin Heq]]. apply Z.eqb_eq in Heq. now subst.
  - intros Hin. exists code. split; [assumption | apply Z.eqb_refl].
Qed.

Lemma getWeatherIcon_undefined : getWeatherIcon None = Some "NOT FOUND".
Proof. reflexivity. Qed.

(** C9. [getWeatherIcon] returns a value for every integer code: the icon
    of the group that contains the code, the string ["NOT FOUND"] when no
    group contains it, and the sun for code 0. *)
Theorem getWeatherIcon_total (code : Z) :
  (forall key icon,
      In (key, icon) icons -> In code (elems key) ->
      getWeatherIcon (Some code) = Some icon)
  /\ ((forall key icon, In (key, icon) icons -> ~ In code (elems key)) ->
      getWeatherIcon (Some code) = Some "NOT FOUND")
  /\ getWeatherIcon (Some 0) = Some "☀️".
Proof.
  split; [| split].
  - intros key icon Hin Hcode.
    unfold icons in Hin. simpl in Hin.
    repeat (destruct Hin as [Hin | Hin];
            [ inversion Hin; subst key icon; clear Hin; simpl in Hcode;
              repeat (destruct Hcode as [Hcode | Hcode];
                      [subst code; reflexivity |]);
              contradiction | ]).
    contradiction.
  - intros Hout. unfold getWeatherIcon.
    destruct (find (fun key => includes key (Some code)) (Map_keys icons))
      as [arr |] eqn:Hfind; [| reflexivity].
    apply find_some in Hfind. destruct Hfind as [Hkey Hinc].
    unfold Map_keys in Hkey. apply in_map_iff in Hkey.
    destruct Hkey as [[key icon] [Hfst Hin]]. simpl in Hfst. subst arr.
    apply includes_In in Hinc. exfalso. exact (Hout key icon Hin Hinc).
  - reflexivity.
Qed.

Lemma getWeatherIcon_total_witness :
  getWeatherIcon (Some 81) = Some "🌧"
  /\ getWeatherIcon (Some 4) = Some "NOT FOUND".
Proof.
  split.
  - apply (proj1 (getWeatherIcon_total 81)
             {| ref := 6%nat; elems := [53; 55; 63; 65; 57; 67; 81; 82] |}).
    + simpl. do 6 right. left. reflexivity.
    + simpl. do 6 right. left. reflexivity.
  - apply (proj1 (proj2 (getWeatherIcon_total 4))).
    intros key icon Hin. simpl in Hin.
    repeat (destruct Hin as [Hin | Hin];
            [ inversion Hin; subst key icon; simpl; intuition lia | ]).
    contradiction.
Defined.

Lemma upper_char_letter (c : ascii) :
  is_letter c = true ->
  regional_indicator (upper_char c) = Some (127397 + charCodeAt (upper_char c)).
Proof.
  destruct c as [[] [] [] [] [] [] [] []];
    intros H; try discriminate H; reflexivity.
Qed.

Lemma upper_char_idempotent (c : ascii) :
  upper_char (upper_char c) = upper_char c.
Proof.
  destruct c as [[] [] [] [] [] [] [] []]; reflexivity.
Qed.

Lemma toUpperCase_idempotent (s : string) :
  toUpperCase (toUpperCase s) = toUpperCase s.
Proof.
  induction s as [| c r IH]; simpl; [reflexivity |].
  now rewrite upper_char_idempotent, IH.
Qed.

Lemma charCodeAt_range (c : ascii) : 0 <= charCodeAt c < 256.
Proof.
  unfold charCodeAt. pose proof (N_ascii_bounded c). lia.
Qed.

Lemma fromCodePoint_in_range (cp : Z) (rest : list Z) :
  0 <= cp <= 1114111 ->
  fromCodePoint (cp :: rest) = option_map (append (utf8 cp)) (fromCodePoint rest).
Proof.
  intros Hcp. cbn [fromCodePoint].
  destruct (cp <? 0) eqn:H1; [apply Z.ltb_lt in H1; lia |].
  destruct (1114111 <? cp) eqn:H2; [apply Z.ltb_lt in H2; lia |].
  reflexivity.
Qed.

Lemma flag_code_point_in_range (c : ascii) :
  0 <= 127397 + charCodeAt c <= 1114111.
Proof. pose proof (charCodeAt_range c). lia. Qed.

(** No country code makes [String.fromCodePoint] throw. *)
Lemma convertToFlag_returns (s : string) :
  exists flag, convertToFlag s = Some flag.
Proof.
  unfold convertToFlag, split_chars.
  induction (toUpperCase s) as [| c r [flag IH]].
  - now exists "".
  - cbn [list_ascii_of_string map].
    rewrite fromCodePoint_in_range by apply flag_code_point_in_range.
    rewrite IH. cbn [option_map]. eauto.
Qed.

(** C10. For a country code of two letters, [convertToFlag] gives the same
    result as on the upper-cased code, and this result is the flag made of
    the regional indicator symbols of the upper-cased letters. *)
Theorem convertToFlag_case_invariant (s : string) :
  String.length s = 2%nat ->
  forallb is_letter (list_ascii_of_string s) = true ->
  convertToFlag s = convertToFlag (toUpperCase s)
  /\ convertToFlag s = regional_flag (toUpperCase s)
  /\ exists flag, convertToFlag s = Some flag.
Proof.
  intros Hlen Hletters. split; [| split].
  - unfold convertToFlag. now rewrite toUpperCase_idempotent.
  - destruct s as [| a [| b [| c r]]]; try discriminate Hlen.
    cbn [list_ascii_of_string forallb] in Hletters.
    apply andb_true_iff in Hletters. destruct Hletters as [Ha Hb].
    apply andb_true_iff in Hb. destruct Hb as [Hb _].
    unfold convertToFlag, split_chars.
    cbn [toUpperCase list_ascii_of_string map regional_flag].
    rewrite (upper_char_letter a Ha), (upper_char_letter b Hb).
    rewrite !fromCodePoint_in_range by apply flag_code_point_in_range.
    reflexivity.
  - apply convertToFlag_returns.
Qed.

Lemma convertToFlag_case_invariant_witness :
  convertToFlag "de" = convertToFlag (toUpperCase "de")
  /\ convertToFlag "de" = regional_flag (toUpperCase "de")
  /\ exists flag, convertToFlag "de" = Some flag.
Proof.
  apply (convertToFlag_case_invariant "de"); reflexivity.
Defined.

(** ** Properties of the rendering *)

Lemma at_nat {A : Type} (l : list A) (i : nat) :
  at_ l (Z.of_nat i) = nth_error l i.
Proof.
  unfold at_.
  destruct (Z.of_nat i <? 0) eqn:Hneg; [apply Z.ltb_lt in Hneg; lia |].
  rewrite Hneg. cbn [orb]. rewrite Nat2Z.id.
  destruct (Z.of_nat (length l) <=? Z.of_nat i) eqn:Hlen; [| reflexivity].
  apply Z.leb_le in Hlen. symmetry. apply nth_error_None. lia.
Qed.

Lemma map_index_length {A B : Type} (f : A -> nat -> B) (l : list A) :
  forall k, length (map_index f k l) = length l.
Proof.
  induction l as [| a r IH]; intros k; simpl; [reflexivity |].
  now rewrite IH.
Qed.

Lemma map_index_nth {A B : Type} (f : A -> nat -> B) (l : list A) :
  forall k i,
    nth_error (map_index f k l) i =
    option_map (fun a => f a (k + i)%nat) (nth_error l i).
Proof.
  induction l as [| a r IH]; intros k i.
  - destruct i; reflexivity.
  - destruct i as [| i]; simpl.
    + now rewrite Nat.add_0_r.
    + rewrite IH. now rewrite Nat.add_succ_r.
Qed.

Lemma WeatherList_nth (weather : Daily) (i : nat) (d : string) :
  nth_error (time weather) i = Some d ->
  nth_error (WeatherList weather) i =
  Some {| date := d;
          max := nth_error (temperature_2m_max weather) i;
          min := nth_error (temperature_2m_min weather) i;
          code := nth_error (weathercode weather) i;
          isToday := Nat.eqb i 0 |}.
Proof.
  intros Hd. unfold WeatherList. rewrite map_index_nth, Hd.
  cbn [option_map Nat.add]. now rewrite !at_nat.
Qed.

(** C8. [WeatherList] makes one [Day] for every date, whatever the lengths
    of the other three arrays.  At an index where the array of maxima, of
    minima or of codes has ended, the [Day] gets [undefined] for that
    property, and shows [NaN] for the temperature and the icon of
    [getWeatherIcon(undefined)]. *)
Theorem WeatherList_unequal_lengths (weather : Daily) (i : nat) :
  (i < length (time weather))%nat ->
  length (WeatherList weather) = length (time weather)
  /\ exists props,
      nth_error (WeatherList weather) i = Some props
      /\ nth_error (time weather) i = Some (date props)
      /\ ((length (temperature_2m_max weather) <= i)%nat ->
          max props = None /\ maxText (Day props) = None)
      /\ ((length (temperature_2m_min weather) <= i)%nat ->
          min props = None /\ minText (Day props) = None)
      /\ ((length (weathercode weather) <= i)%nat ->
          code props = None /\ icon (Day props) = Some "NOT FOUND").
Proof.
  intros Hi. split.
  - unfold WeatherList. apply map_index_length.
  - destruct (nth_error (time weather) i) as [d |] eqn:Hd;
      [| apply nth_error_None in Hd; lia].
    eexists. split; [apply (WeatherList_nth weather i d Hd) |].
    cbn [date max min code Day maxText minText icon].
    split; [reflexivity |].
    repeat split.
    + now apply nth_error_None.
    + apply nth_error_None in H. now rewrite H.
    + now apply nth_error_None.
    + apply nth_error_None in H. now rewrite H.
    + now apply nth_error_None.
    + apply nth_error_None in H. now rewrite H.
Qed.

Lemma WeatherList_unequal_lengths_witness :
  (1 < length (time ragged))%nat
  /\ length (WeatherList ragged) = length (time ragged)
  /\ exists props,
      nth_error (WeatherList ragged) 1 = Some props
      /\ nth_error (time ragged) 1 = Some (date props)
      /\ ((length (temperature_2m_max ragged) <= 1)%nat ->
          max props = None /\ maxText (Day props) = None)
      /\ ((length (temperature_2m_min ragged) <= 1)%nat ->
          min props = None /\ minText (Day props) = None)
      /\ ((length (weathercode ragged) <= 1)%nat ->
          code props = None /\ icon (Day props) = Some "NOT FOUND").
Proof.
  split; [simpl; lia |].
  apply (WeatherList_unequal_lengths ragged 1). simpl. lia.
Defined.

Example WeatherList_ragged :
  map Day (WeatherList ragged) =
  [ {| icon := Some "☀️"; label := Today;
       minText := None; maxText := Some 11 |};
    {| icon := Some "NOT FOUND"; label := FormatDay "2024-01-02";
       minText := None; maxText := None |} ].
Proof. reflexivity. Qed.

(** ** Properties of the effect on [search] *)

Lemma requests_app (l1 l2 : list Effect) :
  requests (l1 ++ l2) = (requests l1 ++ requests l2)%list.
Proof.
  induction l1 as [| [k x | r] l1 IH]; simpl; [reflexivity | assumption |].
  now rewrite IH.
Qed.

Lemma run_cleanup_fields (w : World) :
  search (run_cleanup w) = search w
  /\ log (run_cleanup w) = log w
  /\ storage (run_cleanup w) = storage w
  /\ error (run_cleanup w) = error w
  /\ isLoading (run_cleanup w) = isLoading w
  /\ length (chains (run_cleanup w)) = length (chains w)
  /\ cleanup (run_cleanup w) = None.
Proof.
  unfold run_cleanup. destruct (cleanup w) as [g |] eqn:Hc; simpl;
    repeat split; try assumption.
  generalize (chains w). clear. intros l. revert g.
  induction l as [| a r IH]; intros [| g]; simpl; auto.
Qed.

Ltac cleanup_fields s w :=
  destruct (run_cleanup_fields (set_search s w))
    as (Hsearch & Hlog & Hstorage & Herror & Hloading & Hchains & Hcleanup);
  cbn [search log storage error isLoading chains set_search] in
    Hsearch, Hlog, Hstorage, Herror, Hloading, Hchains.

(** C2, as the code has it.  When the new query has fewer than two UTF-16
    code units (nothing is trimmed), the effect clears the error and the
    forecast, issues no network call and starts no request chain, so that
    neither an error message nor a forecast is rendered.  It does not touch
    [isLoading]. *)
Theorem short_query_resets (v : Version) (s : string) (w : World) :
  (js_length s < 2)%nat ->
  let w' := onQueryChange v s w in
  error w' = ""
  /\ weather w' = None
  /\ requests (log w') = requests (log w)
  /\ length (chains w') = length (chains w)
  /\ current w' = None
  /\ errorMessage (render v w') = None
  /\ weatherList (render v w') = None
  /\ isLoading w' = isLoading w.
Proof.
  intros Hshort w'. subst w'. unfold onQueryChange, effect.
  cleanup_fields s w.
  apply Nat.ltb_lt in Hshort.
  destruct v; cbn [search localStorage_setItem set_log String.eqb Ascii.eqb
                     Bool.eqb set_storage];
    rewrite ?Hsearch, Hshort; cbn;
    rewrite ?Hlog, ?requests_app, ?Hchains, ?Hloading;
    cbn; rewrite ?app_nil_r; repeat split; reflexivity.
Qed.

Lemma short_query_resets_witness :
  (js_length "a" < 2)%nat
  /\ let w' := onQueryChange V1 "a" (berlin_loading V1) in
     error w' = ""
     /\ weather w' = None
     /\ requests (log w') = requests (log (berlin_loading V1))
     /\ length (chains w') = length (chains (berlin_loading V1))
     /\ current w' = None
     /\ errorMessage (render V1 w') = None
     /\ weatherList (render V1 w') = None
     /\ isLoading w' = isLoading (berlin_loading V1).
Proof.
  split; [simpl; lia |].
  apply (short_query_resets V1 "a" (berlin_loading V1)). simpl. lia.
Defined.

(** C2 as stated fails: the query [" a"] has trimmed length 1, and the
    effect issues the geocoding call for it and shows the loader. *)
Lemma trimmed_short_query_fetches :
  let w := mount V1 None in
  let w' := onQueryChange V1 " a" w in
  (trimmed_length " a" < 2)%nat
  /\ requests (log w') = (requests (log w) ++ [GeoSearch " a"])%list
  /\ requests (log w') <> requests (log w)
  /\ isLoading w' = true
  /\ current w' = Some 0%nat.
Proof.
  cbv zeta. repeat split; try reflexivity.
  - vm_compute. lia.
  - vm_compute. discriminate.
Qed.

(** C6, as the code has it.  In the first version every run of the effect
    first stores the new query under the key ["location"], too short or
    not, and then validates it.  In the second version a query of at least
    two code units is stored after the call of [fetchWeatherData], and a
    shorter one is not stored. *)
Theorem query_persisted (s : string) (w : World) :
  (log (onQueryChange V1 s w) =
     (log w ++ SetItem "location" s ::
        (if (js_length s <? 2)%nat then [] else [Fetch (GeoSearch s)]))%list
   /\ storage (onQueryChange V1 s w) = Some s)
  /\ ((2 <= js_length s)%nat ->
      log (onQueryChange V2 s w) =
        (log w ++ [Fetch (GeoSearch s); SetItem "location" s])%list
      /\ storage (onQueryChange V2 s w) = Some s)
  /\ ((js_length s < 2)%nat ->
      log (onQueryChange V2 s w) = log w
      /\ storage (onQueryChange V2 s w) = storage w).
Proof.
  unfold onQueryChange, effect. cleanup_fields s w.
  split; [| split].
  - cbn [search localStorage_setItem set_log String.eqb Ascii.eqb Bool.eqb
           set_storage].
    rewrite Hsearch.
    destruct (js_length s <? 2)%nat; cbn; rewrite Hlog, ?Hsearch;
      rewrite <- ?app_assoc; split; reflexivity.
  - intros Hlong. rewrite Hsearch.
    destruct (js_length s <? 2)%nat eqn:Hlt; [apply Nat.ltb_lt in Hlt; lia |].
    cbn. rewrite Hlog, Hsearch. rewrite <- app_assoc. split; reflexivity.
  - intros Hshort. rewrite Hsearch.
    apply Nat.ltb_lt in Hshort. rewrite Hshort. cbn. now split.
Qed.

Lemma query_persisted_witness :
  storage (onQueryChange V1 "a" (mount V1 None)) = Some "a"
  /\ storage (onQueryChange V2 "Paris" (mount V2 None)) = Some "Paris"
  /\ storage (onQueryChange V2 "a" (mount V2 (Some "Berlin"))) = Some "Berlin".
Proof.
  split; [| split].
  - apply (proj1 (query_persisted "a" (mount V1 None))).
  - apply (proj1 (proj2 (query_persisted "Paris" (mount V2 None)))).
    simpl. lia.
  - rewrite (proj2 (proj2 (proj2 (query_persisted "a" (mount V2 (Some "Berlin"))))
                      ltac:(simpl; lia))).
    reflexivity.
Defined.

(** C6 as stated fails in the second version: the query ["a"] is not
    stored, and the stored value stays what it was. *)
Lemma short_query_not_persisted_V2 :
  let w := mount V2 (Some "Berlin") in
  let w' := onQueryChange V2 "a" w in
  storage w' = Some "Berlin"
  /\ storage w' <> Some "a"
  /\ log w' = log w.
Proof.
  cbv zeta. repeat split; try reflexivity. vm_compute. discriminate.
Qed.

(** ** Properties of the request chains *)

Lemma nth_error_update_nth {A : Type} (f : A -> A) (l : list A) :
  forall n m,
    nth_error (update_nth n f l) m =
    if Nat.eqb n m then option_map f (nth_error l m) else nth_error l m.
Proof.
  induction l as [| a r IH]; intros [| n] [| m]; simpl; try reflexivity.
  - destruct (Nat.eqb n m); reflexivity.
  - apply IH.
Qed.

Lemma reconcile_fields (v : Version) (w : World) :
  outcome (reconcile v w) = outcome w
  /\ isLoading (reconcile v w) = isLoading w
  /\ chains (reconcile v w) = chains w
  /\ cleanup (reconcile v w) = cleanup w
  /\ log (reconcile v w) = log w
  /\ storage (reconcile v w) = storage w
  /\ search (reconcile v w) = search w.
Proof.
  unfold reconcile.
  destruct (localWeatherButton (render v w)); [destruct (localWeather w) |];
    repeat split.
Qed.

Lemma reconcile_error (v : Version) (w : World) :
  error (reconcile v w) = error w.
Proof.
  pose proof (proj1 (reconcile_fields v w)) as H. unfold outcome in H.
  congruence.
Qed.

Lemma render_error (v : Version) (w : World) (msg : string) :
  error w = msg -> msg <> "" -> errorMessage (render v w) = Some msg.
Proof.
  intros He Hmsg. cbn [render errorMessage]. rewrite He. unfold truthy.
  destruct (String.eqb_spec msg ""); [contradiction | reflexivity].
Qed.

Lemma catch_finally_Error (g : nat) (msg : string) (w : World) :
  error (catch_finally g (Error msg) w) = msg
  /\ log (catch_finally g (Error msg) w) = log w
  /\ weather (catch_finally g (Error msg) w) = weather w
  /\ isLoading (catch_finally g (Error msg) w) = false
  /\ option_map pc (nth_error (chains (catch_finally g (Error msg) w)) g)
     = option_map (fun _ => Finished) (nth_error (chains w) g).
Proof.
  unfold catch_finally. cbn. repeat split.
  rewrite nth_error_update_nth, Nat.eqb_refl.
  now destruct (nth_error (chains w) g).
Qed.

(** C7, as the code has it.  A geocoding response whose status is not a
    success ends the chain with the error
    ["Something went wrong with fetching geolocation"], a forecast response
    with ["Something went wrong with fetching weather"]; the message is
    stored and rendered as it is, and no further call is issued. *)
Theorem failed_status_message (v : Version) (w : World) (g : nat) (c : Chain) :
  nth_error (chains w) g = Some c ->
  (pc c = AwaitGeoRes ->
   let w' := step v w (Settle g not_ok) in
   error w' = "Something went wrong with fetching geolocation"
   /\ errorMessage (render v w') =
      Some "Something went wrong with fetching geolocation"
   /\ option_map pc (nth_error (chains w') g) = Some Finished
   /\ log w' = log w)
  /\ (pc c = AwaitWeatherRes ->
      let w' := step v w (Settle g not_ok) in
      error w' = "Something went wrong with fetching weather"
      /\ errorMessage (render v w') =
         Some "Something went wrong with fetching weather"
      /\ option_map pc (nth_error (chains w') g) = Some Finished
      /\ log w' = log w).
Proof.
  intros Hc.
  split; intros Hpc w'; subst w'; unfold step, resume, not_ok;
    rewrite Hc, Hpc; cbn [negb];
    match goal with
    | |- context [catch_finally g (Error ?msg) w] =>
        destruct (catch_finally_Error g msg w) as (He & Hl & _ & _ & Hp);
        destruct (reconcile_fields v (catch_finally g (Error msg) w))
          as (_ & _ & Hch & _ & Hlog & _ & _);
        pose proof (reconcile_error v (catch_finally g (Error msg) w)) as Her
    end;
    rewrite Hc in Hp; cbn [option_map] in Hp;
    (split; [congruence |]);
    (split; [apply render_error; [congruence | discriminate] |]);
    (split; [rewrite Hch; exact Hp | congruence]).
Qed.

Lemma failed_status_message_witness :
  (let w' := step V1 (berlin_loading V1) (Settle 0 not_ok) in
   error w' = "Something went wrong with fetching geolocation"
   /\ errorMessage (render V1 w') =
      Some "Something went wrong with fetching geolocation"
   /\ option_map pc (nth_error (chains w') 0) = Some Finished
   /\ log w' = log (berlin_loading V1))
  /\ (let w' := step V1 (forecast_loading V1) (Settle 0 not_ok) in
      error w' = "Something went wrong with fetching weather"
      /\ errorMessage (render V1 w') =
         Some "Something went wrong with fetching weather"
      /\ option_map pc (nth_error (chains w') 0) = Some Finished
      /\ log w' = log (forecast_loading V1)).
Proof.
  split.
  - apply (proj1 (failed_status_message V1 (berlin_loading V1) 0
                    {| c_search := "Berlin"; geoAborted := false;
                       weatherAborted := false; pc := AwaitGeoRes |}
                    eq_refl)).
    reflexivity.
  - apply (proj2 (failed_status_message V1 (forecast_loading V1) 0
                    {| c_search := "Pa"; geoAborted := false;
                       weatherAborted := false; pc := AwaitWeatherRes |}
                    eq_refl)).
    reflexivity.
Defined.

(** C7 as stated fails: the messages are not ["fetching geolocation
    failed"] and ["fetching weather failed"]. *)
Lemma failed_status_other_message :
  let w1 := step V1 (berlin_loading V1) (Settle 0 not_ok) in
  let w2 := step V1 (forecast_loading V1) (Settle 0 not_ok) in
  errorMessage (render V1 w1) <> Some "fetching geolocation failed"
  /\ errorMessage (render V1 w2) <> Some "fetching weather failed"
  /\ error w1 = "Something went wrong with fetching geolocation"
  /\ error w2 = "Something went wrong with fetching weather".
Proof.
  cbv zeta. repeat split; try reflexivity; vm_compute; discriminate.
Qed.

Lemma abort_keeps_outcome (g : nat) (x : Settled) (w : World) :
  is_abort x = true ->
  outcome (resume g x w) = outcome w.
Proof.
  intros Habort. destruct x as [p | err]; [discriminate Habort |].
  cbn [is_abort] in Habort.
  unfold resume. destruct (nth_error (chains w) g) as [c |]; [| reflexivity].
  destruct (pc c); try reflexivity;
    unfold catch_finally; rewrite Habort; reflexivity.
Qed.

Lemma abort_keeps_error (v : Version) (g : nat) (m : string) (w : World) :
  error (step v w (Settle g (Rejected (AbortError m)))) = error w.
Proof.
  unfold step. rewrite reconcile_error.
  pose proof (abort_keeps_outcome g (Rejected (AbortError m)) w eq_refl) as H.
  unfold outcome in H. congruence.
Qed.

Lemma onQueryChange_clears_error (v : Version) (s : string) (w : World) :
  error (onQueryChange v s w) = "".
Proof.
  unfold onQueryChange, effect.
  destruct v;
    destruct (js_length _ <? 2)%nat; reflexivity.
Qed.

Lemma cancellations_keep_error (v : Version) (cancelled : list (nat * string)) :
  forall w, error (run v w (cancellations cancelled)) = error w.
Proof.
  induction cancelled as [| [g m] rest IH]; intros w; [reflexivity |].
  unfold run in *. cbn [cancellations map fold_left fst snd].
  fold (cancellations rest). rewrite IH. apply abort_keeps_error.
Qed.

Example abort_rejection_after_Paris :
  let w := run V1 (mount V1 (Some "Pa"))
               [SetSearch "Paris"; Settle 0 (Rejected (AbortError "aborted"))] in
  error w = "" /\ current w = Some 1%nat
  /\ option_map pc (nth_error (chains w) 0) = Some Finished.
Proof. cbv zeta. repeat split. Qed.

(** The query ["Pa"] is replaced by ["Paris"], the call of the first
    generation is rejected with an [AbortError], and the responses for
    ["Paris"] arrive: the forecast shown is the one of ["Paris"]. *)
Example Pa_then_Paris_shows_Paris :
  let w := run V1 (mount V1 (Some "Pa"))
               [SetSearch "Paris";
                Settle 0 (Rejected (AbortError "aborted"));
                Settle 1 ok;
                Settle 1 (Fulfilled (GeoJson {| results := Some [paris] |}));
                Settle 1 ok;
                Settle 1 (Fulfilled (WeatherJson {| daily := two_days |}))] in
  outcome w = (Some two_days, "Paris 🇫🇷", "")
  /\ option_map (fun l => hd_error (snd l)) (weatherList (render V1 w)) =
     Some (Some {| icon := Some "☀️"; label := Today;
                   minText := Some 2; maxText := Some 11 |}).
Proof. cbv zeta. split; reflexivity. Qed.

(** *** Superseded generations have their controllers aborted *)

Lemma update_pc_flags (g : nat) (p : Pc) (l : list Chain) (k : nat) :
  option_map abort_flags (nth_error (update_nth g (set_pc p) l) k) =
  option_map abort_flags (nth_error l k).
Proof.
  rewrite nth_error_update_nth.
  destruct (Nat.eqb g k); [| reflexivity].
  now destruct (nth_error l k).
Qed.

Ltac split_resume :=
  repeat match goal with
    | |- context [if negb ?b then _ else _] => destruct b; cbn [negb]
    | |- context [match results ?d with _ => _ end] => destruct (results d)
    | |- context [match at_ ?l ?i with _ => _ end] => destruct (at_ l i)
    | |- context [match call_convertToFlag ?s with _ => _ end] =>
        destruct (call_convertToFlag s)
    | |- context [catch_finally] => unfold catch_finally
    | |- context [if String.eqb ?a ?b then _ else _] =>
        destruct (String.eqb a b)
    end.

Lemma resume_flags (g : nat) (x : Settled) (w : World) :
  cleanup (resume g x w) = cleanup w
  /\ forall k,
      option_map abort_flags (nth_error (chains (resume g x w)) k) =
      option_map abort_flags (nth_error (chains w) k).
Proof.
  unfold resume.
  destruct (nth_error (chains w) g) as [c |]; [| now split].
  destruct (pc c), x as [[ok | d | d | d | d] | err]; split_resume;
    (split; [reflexivity
            | intros k; first [reflexivity | apply update_pc_flags]]).
Qed.

Lemma superseded_aborted_transfer (w w' : World) :
  cleanup w' = cleanup w ->
  (forall k,
      option_map abort_flags (nth_error (chains w') k) =
      option_map abort_flags (nth_error (chains w) k)) ->
  superseded_aborted w -> superseded_aborted w'.
Proof.
  intros Hcl Hflags Hinv g c' Hc' Hcur.
  specialize (Hflags g). rewrite Hc' in Hflags. cbn [option_map] in Hflags.
  destruct (nth_error (chains w) g) as [c |] eqn:Hc; [| discriminate Hflags].
  cbn [option_map] in Hflags.
  assert (E : abort_flags c' = abort_flags c) by congruence.
  rewrite E. apply (Hinv g c Hc). unfold current in *. now rewrite <- Hcl.
Qed.

Lemma setLocalIsLoading_fields (i : nat) (b : bool) (w : World) :
  chains (setLocalIsLoading i b w) = chains w
  /\ cleanup (setLocalIsLoading i b w) = cleanup w.
Proof.
  unfold setLocalIsLoading.
  destruct (localWeather w) as [inst |]; [| now split].
  destruct (Nat.eqb (inst_id inst) i); now split.
Qed.

Lemma local_catch_finally_fields (g i : nat) (err : JsError) (w : World) :
  chains (local_catch_finally g i err w) = chains w
  /\ cleanup (local_catch_finally g i err w) = cleanup w.
Proof.
  unfold local_catch_finally. cbn [lgoto chains cleanup set_lchains].
  apply (setLocalIsLoading_fields i false (setError (err_message err) w)).
Qed.

Lemma local_resume_fields (g : nat) (x : Settled) (w : World) :
  chains (local_resume g x w) = chains w
  /\ cleanup (local_resume g x w) = cleanup w.
Proof.
  unfold local_resume.
  destruct (nth_error (lchains w) g) as [c |]; [| now split].
  destruct (lpc c), x as [[ok | d | d | d | d] | err];
    repeat match goal with
      | |- context [if negb ?b then _ else _] => destruct b; cbn [negb]
      | |- context [match place_name ?d with _ => _ end] =>
          destruct (place_name d)
      | |- context [match call_convertToFlag ?s with _ => _ end] =>
          destruct (call_convertToFlag s)
      end;
    first [ now split
          | apply local_catch_finally_fields
          | cbn [lgoto chains cleanup set_lchains];
            apply (setLocalIsLoading_fields _ false
                     (setWeather (Some (daily d)) w)) ].
Qed.

Lemma setPosition_fields (la ln : option number) (w : World) :
  chains (setPosition la ln w) = chains w
  /\ cleanup (setPosition la ln w) = cleanup w.
Proof.
  unfold setPosition.
  destruct (localWeather w) as [inst |]; [| now split].
  destruct (same_number (lat inst) la && same_number (lng inst) ln);
    [now split |].
  unfold getCurrentPosition. cbn [lat lng inst_id].
  destruct (falsy_number la || falsy_number ln); [now split |].
  destruct la as [la |], ln as [ln |]; try now split.
  cbn [set_lchains fetch set_log chains cleanup].
  match goal with
  | |- context [setLocalIsLoading ?i ?b ?w0] =>
      apply (setLocalIsLoading_fields i b w0)
  end.
Qed.

Lemma run_cleanup_aborts (w : World) :
  superseded_aborted w ->
  forall g c,
    nth_error (chains (run_cleanup w)) g = Some c ->
    abort_flags c = (true, true).
Proof.
  intros Hinv g c. unfold run_cleanup.
  destruct (cleanup w) as [g0 |] eqn:Hcl.
  - cbn [chains set_cleanup set_chains].
    rewrite nth_error_update_nth.
    destruct (Nat.eqb_spec g0 g) as [-> | Hne].
    + destruct (nth_error (chains w) g); [| discriminate].
      cbn [option_map]. now intros [= <-].
    + intros Hc. apply (Hinv g c Hc). unfold current. congruence.
  - intros Hc. apply (Hinv g c Hc). unfold current. congruence.
Qed.

Lemma effect_superseded_aborted (v : Version) (w : World) :
  (forall g c, nth_error (chains w) g = Some c ->
               abort_flags c = (true, true)) ->
  superseded_aborted (effect v w).
Proof.
  intros Hall g c. unfold effect, current.
  destruct v;
    cbn [search localStorage_setItem set_log String.eqb Ascii.eqb Bool.eqb
           set_storage];
    destruct (js_length (search w) <? 2)%nat;
    cbn [chains cleanup set_cleanup setWeather set_weather setError set_error
           fetchWeatherData set_chains fetch set_log setIsLoading
           set_isLoading set_storage localStorage_setItem String.eqb
           Ascii.eqb Bool.eqb search log];
    intros Hc Hcur;
    try (apply (Hall g c Hc));
    (destruct (Nat.lt_ge_cases g (length (chains w))) as [Hlt | Hge];
     [ rewrite nth_error_app1 in Hc by assumption; apply (Hall g c Hc)
     | destruct (Nat.eq_dec g (length (chains w))) as [-> | Hne];
       [ congruence
       | assert (Hnone : nth_error (chains w ++ [{|
                   c_search := search w; geoAborted := false;
                   weatherAborted := false; pc := AwaitGeoRes |}]) g = None)
           by (apply nth_error_None; rewrite length_app; simpl; lia);
         congruence ] ]).
Qed.

Lemma onQueryChange_superseded_aborted (v : Version) (s : string) (w : World) :
  superseded_aborted w -> superseded_aborted (onQueryChange v s w).
Proof.
  intros Hinv. unfold onQueryChange. apply effect_superseded_aborted.
  apply run_cleanup_aborts. exact Hinv.
Qed.

Lemma step_superseded_aborted (v : Version) (w : World) (ev : Event) :
  superseded_aborted w -> superseded_aborted (step v w ev).
Proof.
  intros Hinv. unfold step.
  match goal with
  | |- superseded_aborted (reconcile v ?w0) =>
      destruct (reconcile_fields v w0) as (_ & _ & Hch & Hcl & _);
      apply (superseded_aborted_transfer w0);
        [exact Hcl | intros k; now rewrite Hch |]
  end.
  destruct ev as [s | g x | la ln | g x].
  - destruct (String.eqb s (search w)); [exact Hinv |].
    now apply onQueryChange_superseded_aborted.
  - destruct (resume_flags g x w) as [Hcl' Hfl].
    now apply (superseded_aborted_transfer w).
  - destruct (setPosition_fields la ln w) as [Hch' Hcl'].
    apply (superseded_aborted_transfer w); [exact Hcl' | | exact Hinv].
    intros k. now rewrite Hch'.
  - destruct (local_resume_fields g x w) as [Hch' Hcl'].
    apply (superseded_aborted_transfer w); [exact Hcl' | | exact Hinv].
    intros k. now rewrite Hch'.
Qed.

Lemma run_superseded_aborted (v : Version) (evs : list Event) :
  forall w, superseded_aborted w -> superseded_aborted (run v w evs).
Proof.
  unfold run. induction evs as [| ev rest IH]; intros w Hinv; [exact Hinv |].
  cbn [fold_left]. apply IH. now apply step_superseded_aborted.
Qed.

Lemma mount_superseded_aborted (v : Version) (st : option string) :
  superseded_aborted (mount v st).
Proof.
  unfold mount. apply step_superseded_aborted.
  match goal with
  | |- superseded_aborted (reconcile v ?w0) =>
      destruct (reconcile_fields v w0) as (_ & _ & Hch & Hcl & _);
      apply (superseded_aborted_transfer w0);
        [exact Hcl | intros k; now rewrite Hch |]
  end.
  apply effect_superseded_aborted.
  intros g c Hc. destruct g; discriminate Hc.
Qed.

(** C1, as the code has it.  There is no generation check: the code relies
    on the abort signal.  In every state reached from mounting [App], a
    generation that is not the current one has both its controllers
    aborted; and when the settlement of its awaited call observes the
    abort (the call is rejected with an [AbortError]), the weather, the
    display location and the error stay as they are. *)
Theorem superseded_completion_after_abort
  (v : Version) (st : option string) (evs : list Event) (g : nat) (x : Settled) :
  let w := run v (mount v st) evs in
  current w <> Some g ->
  (forall c, nth_error (chains w) g = Some c -> abort_flags c = (true, true))
  /\ (abort_observed w g x = true ->
      outcome (step v w (Settle g x)) = outcome w).
Proof.
  intros w Hcur.
  assert (Hinv : superseded_aborted w).
  { apply run_superseded_aborted, mount_superseded_aborted. }
  split; [intros c Hc; exact (Hinv g c Hc Hcur) |].
  intros Hobs. unfold step.
  rewrite (proj1 (reconcile_fields v (resume g x w))).
  unfold abort_observed in Hobs.
  destruct (nth_error (chains w) g) as [c |] eqn:Hc.
  - pose proof (Hinv g c Hc Hcur) as Hflags. unfold abort_flags in Hflags.
    injection Hflags as Hgeo Hweather.
    unfold pending_aborted in Hobs.
    destruct (pc c) eqn:Hpc;
      try (rewrite ?Hgeo, ?Hweather in Hobs;
           now apply abort_keeps_outcome).
    unfold resume. now rewrite Hc, Hpc.
  - unfold resume. now rewrite Hc.
Qed.

Lemma superseded_completion_after_abort_witness :
  let w := run V1 (mount V1 (Some "Pa")) [SetSearch "Paris"] in
  let x := Rejected (AbortError "The user aborted a request.") in
  current w <> Some 0%nat
  /\ abort_observed w 0 x = true
  /\ outcome (step V1 w (Settle 0 x)) = outcome w.
Proof.
  cbv zeta.
  assert (Hcur : current (run V1 (mount V1 (Some "Pa")) [SetSearch "Paris"])
                 <> Some 0%nat) by (vm_compute; discriminate).
  split; [exact Hcur |]. split; [reflexivity |].
  apply (proj2 (superseded_completion_after_abort V1 (Some "Pa")
                  [SetSearch "Paris"] 0
                  (Rejected (AbortError "The user aborted a request."))
                  Hcur)).
  reflexivity.
Defined.

(** C1 as stated fails.  The query is ["Pa"], its chain has the forecast
    response and reads the body; the query becomes ["Paris"], which makes
    generation 1 the current one and aborts the controllers of generation
    0.  When the body read of generation 0 is then fulfilled, its
    continuation stores the forecast of the superseded query, which is
    rendered while the chain of ["Paris"] is still under way. *)
Lemma superseded_completion_writes :
  let w := pa_then_paris V1 in
  let w' := step V1 w (Settle 0 (Fulfilled (WeatherJson {| daily := two_days |}))) in
  search w = "Paris"
  /\ current w = Some 1%nat
  /\ option_map abort_flags (nth_error (chains w) 0) = Some (true, true)
  /\ weather w = None
  /\ weather w' = Some two_days
  /\ outcome w' <> outcome w
  /\ option_map pc (nth_error (chains w') 1) = Some AwaitGeoRes
  /\ option_map fst (weatherList (render V1 w')) = Some "Pau 🇫🇷".
Proof.
  cbv zeta. repeat split; try reflexivity. vm_compute. discriminate.
Qed.

Lemma zero_results_ends_in_error
  (v : Version) (w : World) (g : nat) (c : Chain) (rs : option (list GeoResult)) :
  nth_error (chains w) g = Some c ->
  pc c = AwaitGeoData ->
  rs = None \/ rs = Some [] ->
  let w' := step v w (Settle g (Fulfilled (GeoJson {| results := rs |}))) in
  error w' <> ""
  /\ (rs = None -> error w' = "Location not found")
  /\ weatherList (render v w') = None
  /\ weather w' = weather w
  /\ log w' = log w
  /\ option_map pc (nth_error (chains w') g) = Some Finished.
Proof.
  intros Hc Hpc Hrs w'. subst w'. unfold step, resume. rewrite Hc, Hpc.
  cbn [results].
  assert (Hnth : forall msg name0,
             option_map pc
               (nth_error
                  (chains (catch_finally g
                             {| err_name := name0; err_message := msg |} w)) g)
             = Some Finished).
  { intros msg name0. unfold catch_finally.
    destruct (String.eqb _ _); cbn;
      rewrite nth_error_update_nth, Nat.eqb_refl, Hc; reflexivity. }
  destruct Hrs as [-> | ->]; cbn [at_ length Z.of_nat Z.ltb Z.compare orb
                                   Z.leb];
    match goal with
    | |- context [reconcile v ?w0] =>
        destruct (reconcile_fields v w0) as (Ho & Hl & Hch & _ & Hlog & _ & _);
        unfold outcome in Ho; injection Ho as Hw Hd He
    end;
    rewrite Hch, Hlog, Hw;
    cbn [render weatherList]; rewrite He, Hw;
    (split; [discriminate |]);
    (split; [intros Hn; first [reflexivity | discriminate Hn] |]);
    (split; [destruct (weather w); reflexivity |]);
    (split; [reflexivity |]);
    (split; [reflexivity | apply Hnth]).
Qed.

(** C5 at the input where it fails: the geocoding body has an empty
    [results] array.  An empty array is truthy, line 67 lets it pass, and
    the destructuring of [results.at(0)] throws a [TypeError]; its message
    is the error shown, not ["Location not found"].  No forecast is
    rendered and the chain has ended. *)
Theorem empty_results_message :
  let w := step V1 (berlin_loading V1) (Settle 0 ok) in
  let w' := step V1 w (Settle 0 (Fulfilled (GeoJson {| results := Some [] |}))) in
  error w' = err_message destructure_undefined
  /\ error w' <> "Location not found"
  /\ errorMessage (render V1 w') = Some (err_message destructure_undefined)
  /\ weatherList (render V1 w') = None
  /\ option_map pc (nth_error (chains w') 0) = Some Finished.
Proof.
  cbv zeta. repeat split; try reflexivity. vm_compute. discriminate.
Qed.

Example absent_results_message :
  let w := step V1 (berlin_loading V1) (Settle 0 ok) in
  let w' := step V1 w (Settle 0 (Fulfilled (GeoJson {| results := None |}))) in
  errorMessage (render V1 w') = Some "Location not found".
Proof. reflexivity. Qed.

(** C4 at the input where it fails.  [LocalWeather] has a position and its
    chain awaits the timezone response; the user types ["Paris"], which
    starts generation 0 of the text search and unmounts [LocalWeather].
    The calls of [getCurrentPosition] carry no abort signal and its
    continuation checks nothing: when its responses arrive it stores the
    display location and the forecast of the position, and when a response
    fails it stores the error, while the chain of ["Paris"] is under
    way. *)
Theorem local_chain_writes_after_typing :
  let w := located_then_typed in
  let w' :=
    run V1 w
        [LocalSettle 0 ok; LocalSettle 0 (Fulfilled (TimezoneJson berlin_tz));
         LocalSettle 0 ok;
         LocalSettle 0 (Fulfilled (LocationNameJson berlin_name));
         LocalSettle 0 ok;
         LocalSettle 0 (Fulfilled (WeatherJson {| daily := two_days |}))] in
  let w'' := step V1 w (LocalSettle 0 not_ok) in
  search w = "Paris"
  /\ current w = Some 0%nat
  /\ option_map pc (nth_error (chains w) 0) = Some AwaitGeoRes
  /\ localWeather w = None
  /\ option_map lpc (nth_error (lchains w) 0) = Some AwaitTimezoneRes
  /\ outcome w = (None, "", "")
  /\ outcome w' = (Some two_days, "Berlin 🇩🇪", "")
  /\ option_map pc (nth_error (chains w') 0) = Some AwaitGeoRes
  /\ outcome w'' =
     (None, "", "Something went wrong with fetching the current timezone").
Proof.
  cbv zeta. repeat split.
Qed.

(** ** Further properties of the helpers and the rendering *)

Lemma js_length_app (a b : string) :
  js_length (a ++ b) = (js_length a + js_length b)%nat.
Proof.
  induction a as [| c r IH]; simpl; [reflexivity |]. rewrite IH. lia.
Qed.

Lemma flag_char_units (c : ascii) :
  js_length (utf8 (127397 + charCodeAt c)) = 2%nat.
Proof.
  destruct c as [[] [] [] [] [] [] [] []]; reflexivity.
Qed.

Lemma toUpperCase_length (s : string) :
  String.length (toUpperCase s) = String.length s.
Proof.
  induction s as [| c r IH]; simpl; [reflexivity | now rewrite IH].
Qed.

Lemma convertToFlag_units_per_byte (s : string) :
  exists flag,
    convertToFlag s = Some flag
    /\ js_length flag = (2 * String.length s)%nat.
Proof.
  unfold convertToFlag, split_chars.
  rewrite <- (toUpperCase_length s).
  induction (toUpperCase s) as [| c r [flag [IH Hlen]]].
  - exists "". split; reflexivity.
  - cbn [list_ascii_of_string map].
    rewrite fromCodePoint_in_range by apply flag_code_point_in_range.
    rewrite IH. cbn [option_map]. eexists. split; [reflexivity |].
    rewrite js_length_app, flag_char_units, Hlen. simpl String.length. lia.
Qed.

Lemma js_length_ascii (s : string) :
  ascii_only s = true -> js_length s = String.length s.
Proof.
  unfold ascii_only. induction s as [| c r IH]; [reflexivity |].
  cbn [list_ascii_of_string forallb js_length String.length].
  intros H. apply andb_true_iff in H. destruct H as [Hc Hr].
  rewrite (IH Hr). unfold units_of_byte. now rewrite Hc.
Qed.

(** X1. For a country code made of ASCII characters, whichever they are,
    [convertToFlag] does not throw, and its result has two UTF-16 code
    units (one surrogate pair) for every character of the code. *)
Theorem convertToFlag_two_units_per_char (s : string) :
  ascii_only s = true ->
  exists flag,
    convertToFlag s = Some flag
    /\ js_length flag = (2 * js_length s)%nat.
Proof.
  intros Hascii. rewrite (js_length_ascii s Hascii).
  apply convertToFlag_units_per_byte.
Qed.

Lemma convertToFlag_two_units_per_char_witness :
  ascii_only "u1" = true
  /\ exists flag,
      convertToFlag "u1" = Some flag
      /\ js_length flag = (2 * js_length "u1")%nat.
Proof.
  split; [reflexivity |].
  apply (convertToFlag_two_units_per_char "u1"). reflexivity.
Defined.

(** X2. When the four arrays of a forecast have the same length, every
    [Day] that [WeatherList] makes gets a maximum, a minimum and a code:
    none of them is [undefined]. *)
Theorem WeatherList_equal_lengths (weather : Daily) (props : DayProps) :
  length (temperature_2m_max weather) = length (time weather) ->
  length (temperature_2m_min weather) = length (time weather) ->
  length (weathercode weather) = length (time weather) ->
  In props (WeatherList weather) ->
  max props <> None /\ min props <> None /\ code props <> None.
Proof.
  intros Hmax Hmin Hcode Hin.
  apply In_nth_error in Hin. destruct Hin as [i Hi].
  assert (Hlt : (i < length (time weather))%nat).
  { rewrite <- (map_index_length
                  (fun date i =>
                     {| date := date;
                        max := at_ (temperature_2m_max weather) (Z.of_nat i);
                        min := at_ (temperature_2m_min weather) (Z.of_nat i);
                        code := at_ (weathercode weather) (Z.of_nat i);
                        isToday := Nat.eqb i 0 |}) (time weather) 0%nat).
    apply nth_error_Some. fold (WeatherList weather). congruence. }
  destruct (nth_error (time weather) i) as [d |] eqn:Hd;
    [| apply nth_error_None in Hd; lia].
  rewrite (WeatherList_nth weather i d Hd) in Hi.
  injection Hi as <-. cbn [max min code].
  repeat split; apply nth_error_Some; lia.
Qed.

Lemma WeatherList_equal_lengths_witness :
  length (temperature_2m_max two_days) = length (time two_days)
  /\ length (temperature_2m_min two_days) = length (time two_days)
  /\ length (weathercode two_days) = length (time two_days)
  /\ In {| date := "2024-01-02"; max := Some 8.1%Q; min := Some (-1.9)%Q;
           code := Some 3; isToday := false |} (WeatherList two_days)
  /\ (Some 8.1%Q <> None /\ Some (-1.9)%Q <> None /\ Some 3 <> None).
Proof.
  assert (Hin : In {| date := "2024-01-02"; max := Some 8.1%Q;
                      min := Some (-1.9)%Q; code := Some 3;
                      isToday := false |} (WeatherList two_days))
    by (right; left; reflexivity).
  repeat split; try reflexivity; try exact Hin;
    apply (WeatherList_equal_lengths two_days _ eq_refl eq_refl eq_refl Hin).
Defined.

(** X3. Of the days [WeatherList] makes, the first one and no other is
    labelled ["Today"]; every other day is labelled with [formatDay] of its
    own date. *)
Theorem WeatherList_labels (weather : Daily) (i : nat) (props : DayProps) :
  nth_error (WeatherList weather) i = Some props ->
  nth_error (time weather) i = Some (date props)
  /\ (i = 0%nat -> label (Day props) = Today)
  /\ (i <> 0%nat -> label (Day props) = FormatDay (date props)).
Proof.
  intros Hi.
  destruct (nth_error (time weather) i) as [d |] eqn:Hd.
  - rewrite (WeatherList_nth weather i d Hd) in Hi. injection Hi as <-.
    cbn [date Day label isToday]. split; [reflexivity |].
    split; intros H.
    + now subst i.
    + apply Nat.eqb_neq in H. now rewrite H.
  - exfalso. apply nth_error_None in Hd.
    assert (Hsome : nth_error (WeatherList weather) i <> None) by congruence.
    apply nth_error_Some in Hsome. unfold WeatherList in Hsome.
    rewrite map_index_length in Hsome. lia.
Qed.

Lemma WeatherList_labels_witness :
  nth_error (WeatherList two_days) 1 =
    Some {| date := "2024-01-02"; max := Some 8.1%Q; min := Some (-1.9)%Q;
            code := Some 3; isToday := false |}
  /\ label (Day {| date := "2024-01-02"; max := Some 8.1%Q;
                   min := Some (-1.9)%Q; code := Some 3;
                   isToday := false |}) = FormatDay "2024-01-02".
Proof.
  split; [reflexivity |].
  apply (proj2 (proj2 (WeatherList_labels two_days 1 _ eq_refl))).
  discriminate.
Defined.

(** X4. The temperatures a [Day] shows enclose the ones it was given: the
    shown minimum is the largest integer not above the minimum, the shown
    maximum the smallest integer not below the maximum, and when the
    minimum is not above the maximum the shown ones are in the same
    order. *)
Theorem Day_shows_enclosing_range (props : DayProps) (lo hi : number) :
  min props = Some lo ->
  max props = Some hi ->
  exists a b,
    minText (Day props) = Some a /\ maxText (Day props) = Some b
    /\ (inject_Z a <= lo)%Q /\ (lo < inject_Z (a + 1))%Q
    /\ (inject_Z (b - 1) < hi)%Q /\ (hi <= inject_Z b)%Q
    /\ ((lo <= hi)%Q -> a <= b).
Proof.
  intros Hlo Hhi. exists (Qfloor lo), (Qceiling hi).
  cbn [Day minText maxText]. rewrite Hlo, Hhi. cbn [option_map].
  repeat split.
  - apply Qfloor_le.
  - apply Qlt_floor.
  - apply Qceiling_lt.
  - apply Qle_ceiling.
  - intros Hle. rewrite Zle_Qle.
    apply (Qle_trans _ lo); [apply Qfloor_le |].
    apply (Qle_trans _ hi); [exact Hle | apply Qle_ceiling].
Qed.

Lemma Day_shows_enclosing_range_witness :
  exists a b,
    minText (Day {| date := "2024-01-02"; max := Some 8.1%Q;
                    min := Some (-1.9)%Q; code := Some 3;
                    isToday := false |}) = Some a
    /\ maxText (Day {| date := "2024-01-02"; max := Some 8.1%Q;
                       min := Some (-1.9)%Q; code := Some 3;
                       isToday := false |}) = Some b
    /\ (inject_Z a <= (-1.9))%Q /\ ((-1.9) < inject_Z (a + 1))%Q
    /\ (inject_Z (b - 1) < 8.1)%Q /\ (8.1 <= inject_Z b)%Q
    /\ (((-1.9) <= 8.1)%Q -> a <= b).
Proof.
  apply (Day_shows_enclosing_range
           {| date := "2024-01-02"; max := Some 8.1%Q; min := Some (-1.9)%Q;
              code := Some 3; isToday := false |} (-1.9)%Q 8.1%Q);
    reflexivity.
Defined.

(** ** Further properties of [App]: rendering, query changes, mounting *)

(** X5. The first version of [App] renders exactly one of the loader, the
    error message, the current-location button and the forecast; the
    second version renders at most one of them.  In both, an error message
    is never rendered together with a forecast or the loader. *)
Theorem render_one_alternative (w : World) :
  shown (render V1 w) = 1%nat
  /\ (shown (render V2 w) <= 1)%nat
  /\ forall v, errorMessage (render v w) <> None ->
               weatherList (render v w) = None /\ loader (render v w) = false.
Proof.
  unfold shown, render, truthy, has_weathercode.
  cbn [loader errorMessage localWeatherButton weatherList].
  destruct (isLoading w), (String.eqb (error w) ""), (weather w);
    cbn; (split; [reflexivity |]); (split; [lia |]);
    intros v Herr; try (now split); now destruct v.
Qed.

Lemma run_cleanup_outcome (w : World) :
  outcome (run_cleanup w) = outcome w.
Proof.
  unfold run_cleanup. now destruct (cleanup w).
Qed.

Lemma run_cleanup_chains (w : World) :
  chains (run_cleanup w) =
  match cleanup w with
  | Some g => update_nth g abort (chains w)
  | None => chains w
  end.
Proof.
  unfold run_cleanup. now destruct (cleanup w).
Qed.

Lemma update_nth_length {A : Type} (f : A -> A) (l : list A) :
  forall n, length (update_nth n f l) = length l.
Proof.
  induction l as [| a r IH]; intros [| n]; simpl; auto.
Qed.

Lemma onQueryChange_long (v : Version) (s : string) (w : World) :
  (2 <= js_length s)%nat ->
  let w' := onQueryChange v s w in
  let g := length (chains w) in
  search w' = s
  /\ storage w' = Some s
  /\ current w' = Some g
  /\ length (chains w') = S g
  /\ nth_error (chains w') g =
     Some {| c_search := s; geoAborted := false; weatherAborted := false;
             pc := AwaitGeoRes |}
  /\ requests (log w') = (requests (log w) ++ [GeoSearch s])%list
  /\ error w' = ""
  /\ isLoading w' = true
  /\ weather w' = weather w
  /\ displayLocation w' = displayLocation w
  /\ render v w' =
     {| loader := true; errorMessage := None; localWeatherButton := false;
        weatherList := None |}.
Proof.
  intros Hlong w' g. subst w' g. unfold onQueryChange, effect.
  cleanup_fields s w.
  pose proof (run_cleanup_outcome (set_search s w)) as Hout.
  unfold outcome in Hout. cbn [weather displayLocation error set_search] in Hout.
  injection Hout as Hw Hd _.
  assert (Hnot : (js_length s <? 2)%nat = false) by (apply Nat.ltb_ge; lia).
  destruct v;
    cbn [search localStorage_setItem set_log String.eqb Ascii.eqb Bool.eqb
           set_storage];
    rewrite ?Hsearch, Hnot;
    cbn [current cleanup set_cleanup chains fetchWeatherData set_chains fetch
           set_log setIsLoading set_isLoading setError set_error search log
           error isLoading weather displayLocation localStorage_setItem
           String.eqb Ascii.eqb Bool.eqb set_storage render loader
           errorMessage localWeatherButton weatherList truthy negb andb];
    rewrite ?Hsearch, ?Hlog, ?Hchains, ?Hw, ?Hd, ?requests_app,
      ?length_app, ?Hchains;
    cbn [requests length app];
    rewrite ?app_nil_r, <- ?app_assoc, <- ?Hchains, ?nth_error_app2,
      ?Nat.sub_diag by lia;
    cbn [nth_error];
    (repeat split; try reflexivity; try lia);
    unfold render, truthy;
    cbn [weather error isLoading displayLocation set_cleanup fetchWeatherData
           set_chains fetch set_log setIsLoading set_isLoading setError
           set_error set_storage String.eqb negb andb];
    rewrite ?Hw; now destruct (weather w).
Qed.

(** X6. A query of at least two code units starts a new generation: one
    chain is added, suspended at the geocoding call for that query, with
    controllers that are not aborted; it becomes the current generation;
    the geocoding call is the only network call issued; the error is
    cleared and the loader is rendered.  The forecast and the display
    location of the previous query are kept in the state. *)
Theorem long_query_starts_generation (v : Version) (s : string) (w : World) :
  (2 <= js_length s)%nat ->
  let w' := onQueryChange v s w in
  let g := length (chains w) in
  current w' = Some g
  /\ length (chains w') = S g
  /\ nth_error (chains w') g =
     Some {| c_search := s; geoAborted := false; weatherAborted := false;
             pc := AwaitGeoRes |}
  /\ requests (log w') = (requests (log w) ++ [GeoSearch s])%list
  /\ error w' = ""
  /\ isLoading w' = true
  /\ weather w' = weather w
  /\ displayLocation w' = displayLocation w
  /\ render v w' =
     {| loader := true; errorMessage := None; localWeatherButton := false;
        weatherList := None |}.
Proof.
  intros Hlong w' g.
  apply (proj2 (proj2 (onQueryChange_long v s w Hlong))).
Qed.

Lemma long_query_starts_generation_witness :
  (2 <= js_length "Paris")%nat
  /\ let w' := onQueryChange V1 "Paris" (berlin_loading V1) in
     let g := length (chains (berlin_loading V1)) in
     current w' = Some g
     /\ length (chains w') = S g
     /\ nth_error (chains w') g =
        Some {| c_search := "Paris"; geoAborted := false;
                weatherAborted := false; pc := AwaitGeoRes |}
     /\ requests (log w') =
        (requests (log (berlin_loading V1)) ++ [GeoSearch "Paris"])%list
     /\ error w' = ""
     /\ isLoading w' = true
     /\ weather w' = weather (berlin_loading V1)
     /\ displayLocation w' = displayLocation (berlin_loading V1)
     /\ render V1 w' =
        {| loader := true; errorMessage := None; localWeatherButton := false;
           weatherList := None |}.
Proof.
  split; [simpl; lia |].
  apply (long_query_starts_generation V1 "Paris" (berlin_loading V1)).
  simpl. lia.
Defined.

Lemma effect_chains (v : Version) (w : World) :
  exists added, chains (effect v w) = (chains w ++ added)%list.
Proof.
  unfold effect.
  destruct v;
    cbn [search localStorage_setItem set_log String.eqb Ascii.eqb Bool.eqb
           set_storage];
    destruct (js_length (search w) <? 2)%nat;
    cbn [chains set_cleanup setWeather set_weather setError set_error
           fetchWeatherData set_chains fetch set_log setIsLoading
           set_isLoading set_storage localStorage_setItem String.eqb
           Ascii.eqb Bool.eqb search log];
    first [ exists []; now rewrite app_nil_r | eexists; reflexivity ].
Qed.

(** X7. Every change of the query, to a long or to a short one, aborts both
    controllers of the generation that was current, and leaves the point
    where that chain is suspended as it is. *)
Theorem query_change_aborts_current
  (v : Version) (s : string) (w : World) (g : nat) (c : Chain) :
  current w = Some g ->
  nth_error (chains w) g = Some c ->
  nth_error (chains (onQueryChange v s w)) g =
  Some {| c_search := c_search c; geoAborted := true; weatherAborted := true;
          pc := pc c |}.
Proof.
  intros Hcur Hc. unfold onQueryChange.
  destruct (effect_chains v (run_cleanup (set_search s w))) as [added ->].
  rewrite run_cleanup_chains. cbn [cleanup chains set_search].
  unfold current in Hcur. rewrite Hcur.
  assert (Hlt : (g < length (chains w))%nat).
  { apply nth_error_Some. congruence. }
  rewrite nth_error_app1 by (now rewrite update_nth_length).
  rewrite nth_error_update_nth, Nat.eqb_refl, Hc. reflexivity.
Qed.

Lemma query_change_aborts_current_witness :
  current (berlin_loading V1) = Some 0%nat
  /\ nth_error (chains (berlin_loading V1)) 0 =
     Some {| c_search := "Berlin"; geoAborted := false;
             weatherAborted := false; pc := AwaitGeoRes |}
  /\ nth_error (chains (onQueryChange V1 "B" (berlin_loading V1))) 0 =
     Some {| c_search := "Berlin"; geoAborted := true; weatherAborted := true;
             pc := AwaitGeoRes |}.
Proof.
  split; [reflexivity |]. split; [reflexivity |].
  apply (query_change_aborts_current V1 "B" (berlin_loading V1) 0
           {| c_search := "Berlin"; geoAborted := false;
              weatherAborted := false; pc := AwaitGeoRes |});
    reflexivity.
Defined.

Lemma onQueryChange_short (v : Version) (s : string) (w : World) :
  (js_length s < 2)%nat ->
  let w' := onQueryChange v s w in
  search w' = s
  /\ requests (log w') = requests (log w)
  /\ length (chains w') = length (chains w)
  /\ cleanup w' = None
  /\ isLoading w' = isLoading w
  /\ weather w' = None
  /\ displayLocation w' = displayLocation w
  /\ error w' = "".
Proof.
  intros Hshort w'. subst w'. unfold onQueryChange, effect.
  cleanup_fields s w.
  pose proof (run_cleanup_outcome (set_search s w)) as Hout.
  unfold outcome in Hout. cbn [weather displayLocation error set_search] in Hout.
  injection Hout as _ Hd _.
  apply Nat.ltb_lt in Hshort.
  destruct v;
    cbn [search localStorage_setItem set_log String.eqb Ascii.eqb Bool.eqb
           set_storage];
    rewrite ?Hsearch, Hshort;
    cbn [cleanup set_cleanup chains setWeather set_weather setError set_error
           search log error isLoading weather displayLocation set_storage
           set_log];
    rewrite ?Hsearch, ?Hlog, ?Hchains, ?Hd, ?Hloading, ?requests_app;
    cbn [requests]; rewrite ?app_nil_r; repeat split.
Qed.

Lemma first_effect_run (v : Version) (st : option string) :
  let w1 := reconcile v (effect v (init st)) in
  search w1 = ""
  /\ chains w1 = []
  /\ cleanup w1 = None
  /\ requests (log w1) = []
  /\ outcome w1 = (None, "", "")
  /\ isLoading w1 = false.
Proof.
  destruct v; repeat split.
Qed.

Lemma render_reconcile (v : Version) (w : World) :
  render v (reconcile v w) = render v w.
Proof.
  destruct (reconcile_fields v w) as (Ho & Hl & _).
  unfold outcome in Ho. injection Ho as Hw Hd He.
  unfold render, has_weathercode. now rewrite Hw, Hd, He, Hl.
Qed.

(** X8. Mounting [App] with a stored query of at least two code units
    restores it and starts exactly one request chain: the query is the
    stored one, one geocoding call for it is the only network call, its
    chain is the current generation, the loader is rendered, and the
    stored value is the query again. *)
Theorem mount_restores_query (v : Version) (s : string) :
  (2 <= js_length s)%nat ->
  let w := mount v (Some s) in
  search w = s
  /\ requests (log w) = [GeoSearch s]
  /\ chains w = [{| c_search := s; geoAborted := false;
                    weatherAborted := false; pc := AwaitGeoRes |}]
  /\ current w = Some 0%nat
  /\ storage w = Some s
  /\ loader (render v w) = true
  /\ outcome w = (None, "", "").
Proof.
  intros Hlong w. subst w. unfold mount, step.
  cbn [restored_search init storage].
  destruct (first_effect_run v (Some s))
    as (Hs1 & Hc1 & Hcl1 & Hr1 & Ho1 & Hl1).
  cbv zeta in Hs1, Hc1, Hcl1, Hr1, Ho1, Hl1.
  set (w1 := reconcile v (effect v (init (Some s)))) in *.
  rewrite Hs1.
  assert (Hne : String.eqb s "" = false).
  { destruct s; [simpl in Hlong; lia | reflexivity]. }
  rewrite Hne. rewrite render_reconcile.
  destruct (reconcile_fields v (onQueryChange v s w1))
    as (Ho & _ & Hch & Hcl & Hlog & Hst & Hse).
  destruct (onQueryChange_long v s w1 Hlong)
    as (Ks & Kst & Kcur & Klen & Knth & Kreq & Kerr & Kload & Kw & Kd & Kr).
  rewrite Hc1 in Kcur, Klen, Knth. rewrite Hr1 in Kreq.
  unfold outcome in Ho1. injection Ho1 as Hw1 Hd1 He1.
  unfold current in *.
  rewrite Hse, Hlog, Hch, Hcl, Hst, Ho, Kr.
  unfold outcome. rewrite Kw, Kd, Kerr, Hw1, Hd1.
  cbn [length nth_error app] in Kcur, Klen, Knth, Kreq.
  repeat split; try assumption.
  destruct (chains (onQueryChange v s w1)) as [| c0 [| c1 rest]];
    try discriminate Klen.
  cbn [nth_error] in Knth. now injection Knth as ->.
Qed.

Lemma mount_restores_query_witness :
  (2 <= js_length "Berlin")%nat
  /\ let w := mount V2 (Some "Berlin") in
     search w = "Berlin"
     /\ requests (log w) = [GeoSearch "Berlin"]
     /\ chains w = [{| c_search := "Berlin"; geoAborted := false;
                       weatherAborted := false; pc := AwaitGeoRes |}]
     /\ current w = Some 0%nat
     /\ storage w = Some "Berlin"
     /\ loader (render V2 w) = true
     /\ outcome w = (None, "", "").
Proof.
  split; [simpl; lia |].
  apply (mount_restores_query V2 "Berlin"). simpl. lia.
Defined.

(** X9. Mounting [App] with no stored query, or with a stored query of
    fewer than two code units, issues no network call and starts no
    chain; nothing is loading, and the first version renders the
    current-location button. *)
Theorem mount_without_query (v : Version) (st : option string) :
  (js_length (match st with Some s => s | None => "" end) < 2)%nat ->
  let w := mount v st in
  requests (log w) = []
  /\ chains w = []
  /\ current w = None
  /\ isLoading w = false
  /\ outcome w = (None, "", "")
  /\ localWeatherButton (render v w) =
     match v with V1 => true | V2 => false end.
Proof.
  intros Hshort w. subst w. unfold mount, step.
  replace (restored_search (init st))
    with (match st with Some s => s | None => "" end)
    by (now destruct st).
  set (s := match st with Some s => s | None => "" end) in *.
  destruct (first_effect_run v st) as (Hs1 & Hc1 & Hcl1 & Hr1 & Ho1 & Hl1).
  cbv zeta in Hs1, Hc1, Hcl1, Hr1, Ho1, Hl1.
  set (w1 := reconcile v (effect v (init st))) in *.
  unfold outcome in Ho1. injection Ho1 as Hw1 Hd1 He1.
  assert (Hgoal : forall w2,
             requests (log w2) = [] -> length (chains w2) = 0%nat ->
             cleanup w2 = None -> isLoading w2 = false ->
             weather w2 = None -> displayLocation w2 = "" -> error w2 = "" ->
             requests (log (reconcile v w2)) = []
             /\ chains (reconcile v w2) = []
             /\ current (reconcile v w2) = None
             /\ isLoading (reconcile v w2) = false
             /\ outcome (reconcile v w2) = (None, "", "")
             /\ localWeatherButton (render v (reconcile v w2)) =
                match v with V1 => true | V2 => false end).
  { intros w2 Hr Hlen Hcl Hl Hw Hd He.
    rewrite render_reconcile.
    destruct (reconcile_fields v w2) as (Ho & Hl' & Hch & Hcl' & Hlog & _).
    unfold current. rewrite Hlog, Hch, Hcl', Hl', Ho.
    unfold outcome, render, has_weathercode, truthy.
    cbn [localWeatherButton]. rewrite Hw, Hd, He, Hl.
    repeat split; try assumption.
    now destruct (chains w2). }
  rewrite Hs1.
  destruct (String.eqb s "").
  - apply Hgoal; try assumption. now rewrite Hc1.
  - destruct (onQueryChange_short v s w1 Hshort)
      as (_ & Kreq & Klen & Kcl & Kload & Kw & Kd & Kerr).
    apply Hgoal; try congruence. rewrite Klen. now rewrite Hc1.
Qed.

Lemma mount_without_query_witness :
  (js_length "B" < 2)%nat
  /\ let w := mount V1 (Some "B") in
     requests (log w) = []
     /\ chains w = []
     /\ current w = None
     /\ isLoading w = false
     /\ outcome w = (None, "", "")
     /\ localWeatherButton (render V1 w) = true.
Proof.
  split; [simpl; lia |].
  apply (mount_without_query V1 (Some "B")). simpl. lia.
Defined.

(** ** Further properties of the chain of [fetchWeatherData] *)

Lemma goto_nth (g : nat) (p : Pc) (w : World) (c : Chain) :
  nth_error (chains w) g = Some c ->
  nth_error (chains (goto g p w)) g = Some (set_pc p c).
Proof.
  intros Hc. unfold goto. cbn [chains set_chains].
  now rewrite nth_error_update_nth, Nat.eqb_refl, Hc.
Qed.

Lemma step_settle_fields (v : Version) (w : World) (g : nat) (x : Settled) :
  let w' := step v w (Settle g x) in
  chains w' = chains (resume g x w)
  /\ outcome w' = outcome (resume g x w)
  /\ isLoading w' = isLoading (resume g x w)
  /\ log w' = log (resume g x w)
  /\ render v w' = render v (resume g x w).
Proof.
  unfold step.
  destruct (reconcile_fields v (resume g x w)) as (Ho & Hl & Hch & _ & Hlog & _).
  repeat split; try assumption. apply render_reconcile.
Qed.



(** X22. When the first result of the geocoding body has no country code
    ([undefined] or [null]), [convertToFlag] throws a [TypeError] at its
    first line; the chain ends with the message of that error shown,
    [isLoading] false, no forecast call issued, and the forecast and the
    display location as they were. *)
Theorem missing_country_code_error
  (v : Version) (w : World) (g : nat) (c : Chain)
  (r : GeoResult) (others : list GeoResult) :
  nth_error (chains w) g = Some c ->
  pc c = AwaitGeoData ->
  country_code r = Undefined \/ country_code r = Null ->
  let w' :=
    step v w
         (Settle g (Fulfilled (GeoJson {| results := Some (r :: others) |}))) in
  error w' =
    err_message (cannot_read (to_string (country_code r)) "toUpperCase")
  /\ errorMessage (render v w') = Some (error w')
  /\ isLoading w' = false
  /\ weather w' = weather w
  /\ displayLocation w' = displayLocation w
  /\ log w' = log w
  /\ option_map pc (nth_error (chains w') g) = Some Finished.
Proof.
  intros Hc Hpc Hmissing w'. subst w'.
  set (x := Fulfilled (GeoJson {| results := Some (r :: others) |})).
  destruct (step_settle_fields v w g x) as (C & O & L & G & V).
  cbv zeta in C, O, L, G, V. rewrite C, L, G, V.
  unfold outcome in O.
  assert (R : resume g x w =
              catch_finally g
                (cannot_read (to_string (country_code r)) "toUpperCase") w).
  { unfold resume, x. rewrite Hc, Hpc. cbn [results].
    replace (at_ (r :: others) 0) with (Some r) by reflexivity.
    destruct Hmissing as [-> | ->]; reflexivity. }
  rewrite R in *.
  set (err := cannot_read (to_string (country_code r)) "toUpperCase") in *.
  assert (Hname : String.eqb (err_name err) "AbortError" = false)
    by reflexivity.
  assert (K : catch_finally g err w =
              goto g Finished (setIsLoading false (setError (err_message err) w))).
  { unfold catch_finally. now rewrite Hname. }
  rewrite K in *.
  cbn [weather displayLocation error isLoading log goto set_chains
         setIsLoading set_isLoading setError set_error] in O |- *.
  assert (E : error (step v w (Settle g x)) = err_message err) by congruence.
  assert (Hne : err_message err <> "").
  { subst err. destruct Hmissing as [-> | ->]; discriminate. }
  repeat split; try congruence.
  - unfold render, truthy. cbn [errorMessage error goto set_chains
      setIsLoading set_isLoading setError set_error].
    rewrite E. apply String.eqb_neq in Hne. now rewrite Hne.
  - pose proof (goto_nth g Finished
                  (setIsLoading false (setError (err_message err) w)) c Hc) as N.
    now rewrite N.
Qed.

Lemma missing_country_code_error_witness :
  let r := {| latitude := Val 48.8566%Q; longitude := Val 2.3522%Q;
              timezone := Val "Europe/Paris"; name := Val "Paris";
              country_code := Undefined |} in
  let w := step V1 (berlin_loading V1) (Settle 0 ok) in
  let w' :=
    step V1 w (Settle 0 (Fulfilled (GeoJson {| results := Some [r] |}))) in
  nth_error (chains w) 0 =
    Some {| c_search := "Berlin"; geoAborted := false;
            weatherAborted := false; pc := AwaitGeoData |}
  /\ error w' = "Cannot read properties of undefined (reading 'toUpperCase')"
  /\ log w' = log w.
Proof.
  cbv zeta. split; [reflexivity |].
  pose proof (missing_country_code_error V1
                (step V1 (berlin_loading V1) (Settle 0 ok)) 0
                {| c_search := "Berlin"; geoAborted := false;
                   weatherAborted := false; pc := AwaitGeoData |}
                {| latitude := Val 48.8566%Q; longitude := Val 2.3522%Q;
                   timezone := Val "Europe/Paris"; name := Val "Paris";
                   country_code := Undefined |} []
                eq_refl eq_refl (or_introl eq_refl)) as H.
  cbv zeta in H. destruct H as (He & _ & _ & _ & _ & Hlog & _).
  split; [exact He | exact Hlog].
Defined.

Lemma stored_values_app (l1 l2 : list Effect) :
  stored_values (l1 ++ l2) = (stored_values l1 ++ stored_values l2)%list.
Proof.
  induction l1 as [| [k x | r] l1 IH]; simpl; [reflexivity | | assumption].
  now rewrite IH.
Qed.

Lemma geo_searches_app (l1 l2 : list Request) :
  geo_searches (l1 ++ l2) = (geo_searches l1 + geo_searches l2)%nat.
Proof.
  induction l1 as [| [n | la lo tz | la ln | la ln] l1 IH]; simpl;
    try assumption; [reflexivity | now rewrite IH].
Qed.

Lemma resume_frame (g : nat) (x : Settled) (w : World) :
  storage (resume g x w) = storage w
  /\ search (resume g x w) = search w
  /\ lchains (resume g x w) = lchains w
  /\ localWeather (resume g x w) = localWeather w
  /\ length (chains (resume g x w)) = length (chains w)
  /\ (log (resume g x w) = log w
      \/ exists la lo tz,
          log (resume g x w) = (log w ++ [Fetch (Forecast la lo tz)])%list).
Proof.
  unfold resume.
  destruct (nth_error (chains w) g) as [c |];
    [| repeat split; now left].
  destruct (pc c), x as [[ok | d | d | d | d] | err]; split_resume;
    cbn [storage search lchains localWeather chains log goto set_chains
           setIsLoading set_isLoading setWeather set_weather setError
           set_error fetch set_log setDisplayLocation set_displayLocation];
    rewrite ?update_nth_length;
    (repeat split;
     first [ left; reflexivity | right; eexists _, _, _; reflexivity ]).
Qed.

(** X11. The continuation of a text search never writes to
    [localStorage], never changes the query, never starts or removes a
    chain and never issues a geocoding call: the only call it can issue is
    one forecast call. *)
Theorem settlement_frame (v : Version) (w : World) (g : nat) (x : Settled) :
  let w' := step v w (Settle g x) in
  storage w' = storage w
  /\ search w' = search w
  /\ current w' = current w
  /\ length (chains w') = length (chains w)
  /\ stored_values (log w') = stored_values (log w)
  /\ geo_searches (requests (log w')) = geo_searches (requests (log w))
  /\ (log w' = log w
      \/ exists la lo tz,
          log w' = (log w ++ [Fetch (Forecast la lo tz)])%list).
Proof.
  unfold step, current.
  destruct (reconcile_fields v (resume g x w))
    as (_ & _ & Hch & Hcl & Hlog & Hst & Hse).
  destruct (resume_frame g x w) as (Fst & Fse & _ & _ & Flen & Flog).
  destruct (resume_flags g x w) as [Fcl _].
  rewrite Hst, Hse, Hcl, Hch, Hlog, Fst, Fse, Fcl, Flen.
  repeat split; try exact Flog;
    destruct Flog as [-> | (la & lo & tz & ->)]; try reflexivity.
  - rewrite stored_values_app. cbn. now rewrite app_nil_r.
  - rewrite requests_app, geo_searches_app. cbn. lia.
Qed.

Lemma resume_finishing
  (g : nat) (x : Settled) (w : World) (c : Chain) :
  nth_error (chains w) g = Some c ->
  pc c <> Finished ->
  (option_map pc (nth_error (chains (resume g x w)) g) = Some Finished ->
   isLoading (resume g x w) = false)
  /\ (option_map pc (nth_error (chains (resume g x w)) g) <> Some Finished ->
      isLoading (resume g x w) = isLoading w).
Proof.
  intros Hc Hpc. unfold resume. rewrite Hc.
  destruct (pc c) eqn:Hpc', x as [[ok | d | d | d | d] | err];
    try contradiction; split_resume;
    cbn [isLoading chains goto set_chains setIsLoading set_isLoading
           setWeather set_weather setError set_error fetch set_log
           setDisplayLocation set_displayLocation];
    rewrite ?nth_error_update_nth, ?Nat.eqb_refl, ?Hc; cbn [option_map pc set_pc];
    rewrite ?Hpc';
    (split; intros H; first [reflexivity | discriminate H | now contradiction H]).
Qed.

(** X12. A settlement changes [isLoading] only when it ends its chain, and
    then sets it to false, whether or not the chain is the current
    generation: with success, with an error and with an [AbortError]
    alike. *)
Theorem finishing_clears_isLoading
  (v : Version) (w : World) (g : nat) (x : Settled) (c : Chain) :
  nth_error (chains w) g = Some c ->
  pc c <> Finished ->
  let w' := step v w (Settle g x) in
  (option_map pc (nth_error (chains w') g) = Some Finished ->
   isLoading w' = false)
  /\ (option_map pc (nth_error (chains w') g) <> Some Finished ->
      isLoading w' = isLoading w).
Proof.
  intros Hc Hpc w'. subst w'.
  destruct (step_settle_fields v w g x) as (Hch & _ & Hl & _).
  rewrite Hch, Hl. now apply (resume_finishing g x w c).
Qed.

Lemma finishing_clears_isLoading_witness :
  let w := run V1 (mount V1 (Some "Pa")) [SetSearch "Paris"] in
  let w' := step V1 w (Settle 0 (Rejected (AbortError "aborted"))) in
  nth_error (chains w) 0 =
    Some {| c_search := "Pa"; geoAborted := true; weatherAborted := true;
            pc := AwaitGeoRes |}
  /\ current w = Some 1%nat
  /\ isLoading w = true
  /\ isLoading w' = false.
Proof.
  cbv zeta. split; [reflexivity |]. split; [reflexivity |].
  split; [reflexivity |].
  apply (proj1 (finishing_clears_isLoading V1
                  (run V1 (mount V1 (Some "Pa")) [SetSearch "Paris"]) 0
                  (Rejected (AbortError "aborted"))
                  {| c_search := "Pa"; geoAborted := true;
                     weatherAborted := true; pc := AwaitGeoRes |}
                  eq_refl ltac:(discriminate))).
  reflexivity.
Defined.

(** ** Invariants of the runs of [App] *)

Lemma onQueryChange_log (v : Version) (s : string) (w : World) :
  log (onQueryChange v s w) = (log w ++ effect_log v s)%list
  /\ search (onQueryChange v s w) = s
  /\ storage (onQueryChange v s w) =
     match v, (js_length s <? 2)%nat with
     | V2, true => storage w
     | _, _ => Some s
     end
  /\ length (chains (onQueryChange v s w)) =
     (length (chains w) + if (js_length s <? 2)%nat then 0 else 1)%nat.
Proof.
  unfold onQueryChange, effect, effect_log. cleanup_fields s w.
  destruct v;
    cbn [search localStorage_setItem set_log String.eqb Ascii.eqb Bool.eqb
           set_storage];
    rewrite ?Hsearch;
    destruct (js_length s <? 2)%nat;
    cbn [log search storage chains set_cleanup setWeather set_weather setError
           set_error fetchWeatherData set_chains fetch set_log setIsLoading
           set_isLoading set_storage localStorage_setItem String.eqb
           Ascii.eqb Bool.eqb];
    rewrite ?Hsearch, ?Hlog, ?Hstorage, ?length_app, ?Hchains,
      <- ?app_assoc, ?app_nil_r;
    cbn [length app]; repeat split; lia.
Qed.

Lemma setLocalIsLoading_frame (i : nat) (b : bool) (w : World) :
  storage (setLocalIsLoading i b w) = storage w
  /\ search (setLocalIsLoading i b w) = search w
  /\ log (setLocalIsLoading i b w) = log w
  /\ lchains (setLocalIsLoading i b w) = lchains w
  /\ outcome (setLocalIsLoading i b w) = outcome w
  /\ isLoading (setLocalIsLoading i b w) = isLoading w.
Proof.
  unfold setLocalIsLoading.
  destruct (localWeather w) as [inst |]; [| repeat split].
  destruct (Nat.eqb (inst_id inst) i); repeat split.
Qed.

Ltac local_flag i b w0 :=
  destruct (setLocalIsLoading_frame i b w0)
    as (Fst & Fse & Flog & Flch & Fout & Fload);
  unfold outcome in Fout;
  injection Fout as Fw Fd Fe.

Lemma local_resume_frame (g : nat) (x : Settled) (w : World) :
  storage (local_resume g x w) = storage w
  /\ search (local_resume g x w) = search w
  /\ exists fetched,
      log (local_resume g x w) = (log w ++ map Fetch fetched)%list
      /\ geo_searches fetched = 0%nat.
Proof.
  unfold local_resume.
  destruct (nth_error (lchains w) g) as [c |];
    [| repeat split; exists []; now rewrite app_nil_r].
  destruct (lpc c), x as [[ok | d | d | d | d] | err];
    repeat match goal with
      | |- context [if negb ?b then _ else _] => destruct b; cbn [negb]
      | |- context [match place_name ?d with _ => _ end] =>
          destruct (place_name d)
      | |- context [match call_convertToFlag ?s with _ => _ end] =>
          destruct (call_convertToFlag s)
      end;
    unfold local_catch_finally;
    cbn [storage search log lgoto set_lchains fetch set_log
           setDisplayLocation set_displayLocation];
    try match goal with
      | |- context [setLocalIsLoading ?i ?b ?w0] =>
          local_flag i b w0; rewrite Fst, Fse, Flog
      end;
    cbn [storage search log setError set_error setWeather set_weather];
    (repeat split;
     first [ exists []; now rewrite app_nil_r
           | eexists [_]; split; reflexivity ]).
Qed.

Lemma setPosition_frame (la ln : option number) (w : World) :
  storage (setPosition la ln w) = storage w
  /\ search (setPosition la ln w) = search w
  /\ exists fetched,
      log (setPosition la ln w) = (log w ++ map Fetch fetched)%list
      /\ geo_searches fetched = 0%nat.
Proof.
  unfold setPosition.
  destruct (localWeather w) as [inst |];
    [| repeat split; exists []; now rewrite app_nil_r].
  destruct (same_number (lat inst) la && same_number (lng inst) ln);
    [repeat split; exists []; now rewrite app_nil_r |].
  unfold getCurrentPosition. cbn [lat lng inst_id].
  destruct (falsy_number la || falsy_number ln);
    [repeat split; exists []; now rewrite app_nil_r |].
  destruct la as [la |], ln as [ln |];
    try (repeat split; exists []; now rewrite app_nil_r).
  cbn [storage search log set_lchains fetch set_log].
  match goal with
  | |- context [setLocalIsLoading ?i ?b ?w0] =>
      local_flag i b w0; rewrite Fst, Fse, Flog
  end.
  cbn [storage search log setError set_error set_localWeather].
  repeat split. eexists [_]. split; reflexivity.
Qed.

Lemma stored_values_fetches (l : list Effect) (fetched : list Request) :
  stored_values (l ++ map Fetch fetched) = stored_values l.
Proof.
  rewrite stored_values_app.
  assert (H : stored_values (map Fetch fetched) = []).
  { induction fetched; simpl; auto. }
  rewrite H. apply app_nil_r.
Qed.

Lemma requests_fetches (l : list Effect) (fetched : list Request) :
  requests (l ++ map Fetch fetched) = (requests l ++ fetched)%list.
Proof.
  rewrite requests_app. f_equal. induction fetched; simpl; congruence.
Qed.

(** What every event other than a change of the query leaves alone. *)
Lemma quiet_step (v : Version) (w : World) (ev : Event) :
  (forall s, ev = SetSearch s -> s = search w) ->
  storage (step v w ev) = storage w
  /\ search (step v w ev) = search w
  /\ stored_values (log (step v w ev)) = stored_values (log w)
  /\ geo_searches (requests (log (step v w ev))) =
     geo_searches (requests (log w))
  /\ length (chains (step v w ev)) = length (chains w).
Proof.
  intros Hquiet. unfold step.
  match goal with
  | |- context [reconcile v ?w0] =>
      destruct (reconcile_fields v w0) as (_ & _ & Hch & _ & Hlog & Hst & Hse)
  end.
  rewrite Hst, Hse, Hlog, Hch. clear Hst Hse Hlog Hch.
  destruct ev as [s | g x | la ln | g x].
  - rewrite (Hquiet s eq_refl), String.eqb_refl. repeat split.
  - destruct (resume_frame g x w) as (Fst & Fse & _ & _ & Flen & Flog).
    rewrite Fst, Fse, Flen.
    destruct Flog as [-> | (la & lo & tz & ->)]; repeat split;
      rewrite ?stored_values_app, ?requests_app, ?geo_searches_app;
      cbn; rewrite ?app_nil_r; first [reflexivity | lia].
  - destruct (setPosition_frame la ln w) as (Fst & Fse & fetched & -> & Hgeo).
    destruct (setPosition_fields la ln w) as [-> _].
    rewrite Fst, Fse, stored_values_fetches, requests_fetches,
      geo_searches_app, Hgeo.
    repeat split. lia.
  - destruct (local_resume_frame g x w) as (Fst & Fse & fetched & -> & Hgeo).
    destruct (local_resume_fields g x w) as [-> _].
    rewrite Fst, Fse, stored_values_fetches, requests_fetches,
      geo_searches_app, Hgeo.
    repeat split. lia.
Qed.

Lemma run_invariant (v : Version) (P : World -> Prop) :
  (forall w ev, P w -> P (step v w ev)) ->
  forall evs w, P w -> P (run v w evs).
Proof.
  intros Hstep. unfold run.
  induction evs as [| ev rest IH]; intros w Hw; [exact Hw |].
  cbn [fold_left]. apply IH. now apply Hstep.
Qed.

Lemma step_cases (v : Version) (w : World) (ev : Event) :
  (exists s, ev = SetSearch s /\ s <> search w
             /\ step v w ev = reconcile v (onQueryChange v s w))
  \/ (forall s, ev = SetSearch s -> s = search w).
Proof.
  destruct ev as [s | g x | la ln | g x]; try (right; discriminate).
  destruct (String.eqb_spec s (search w)) as [Heq | Hne].
  - right. now intros s' [= <-].
  - left. exists s. repeat split; [assumption |].
    unfold step. apply String.eqb_neq in Hne. now rewrite Hne.
Qed.

(** X13. In the first version, after mounting and any sequence of events,
    the value in [localStorage] is the current query: reloading the page
    restores what the search box shows. *)
Theorem stored_query_is_current_V1 (st : option string) (evs : list Event) :
  let w := run V1 (mount V1 st) evs in
  storage w = Some (search w).
Proof.
  assert (Hstep : forall w ev,
             storage w = Some (search w) ->
             storage (step V1 w ev) = Some (search (step V1 w ev))).
  { intros w ev Hw.
    destruct (step_cases V1 w ev) as [(s & -> & Hne & ->) | Hquiet].
    - destruct (reconcile_fields V1 (onQueryChange V1 s w))
        as (_ & _ & _ & _ & _ & Hst & Hse).
      destruct (onQueryChange_log V1 s w) as (_ & Ks & Kst & _).
      rewrite Hst, Hse, Ks, Kst. now destruct (js_length s <? 2)%nat.
    - destruct (quiet_step V1 w ev Hquiet) as (Hst & Hse & _).
      now rewrite Hst, Hse. }
  cbv zeta. apply (run_invariant V1 _ Hstep).
  unfold mount. apply Hstep. now destruct st.
Qed.

(** X14. In the second version, every value ever written to
    [localStorage] is written under the key ["location"] and has at least
    two code units: a query too short to be searched is never stored. *)
Theorem stored_queries_long_V2 (st : option string) (evs : list Event) :
  let w := run V2 (mount V2 st) evs in
  Forall (fun kv => fst kv = "location" /\ (2 <= js_length (snd kv))%nat)
         (stored_values (log w)).
Proof.
  set (P := fun w : World =>
              Forall (fun kv => fst kv = "location"
                                /\ (2 <= js_length (snd kv))%nat)
                     (stored_values (log w))).
  assert (Hstep : forall w ev, P w -> P (step V2 w ev)).
  { intros w ev Hw. unfold P in *.
    destruct (step_cases V2 w ev) as [(s & -> & Hne & ->) | Hquiet].
    - destruct (reconcile_fields V2 (onQueryChange V2 s w))
        as (_ & _ & _ & _ & Hlog & _).
      destruct (onQueryChange_log V2 s w) as (Klog & _).
      rewrite Hlog, Klog, stored_values_app. apply Forall_app.
      split; [exact Hw |]. unfold effect_log.
      destruct (js_length s <? 2)%nat eqn:Hlt; cbn; [constructor |].
      apply Nat.ltb_ge in Hlt. repeat constructor. exact Hlt.
    - destruct (quiet_step V2 w ev Hquiet) as (_ & _ & Hsv & _).
      now rewrite Hsv. }
  cbv zeta. apply (run_invariant V2 P Hstep).
  unfold mount. apply Hstep. unfold P. destruct st; constructor.
Qed.

(** X15. After mounting and any sequence of events, the number of
    geocoding calls issued is the number of generations started: every
    generation issues exactly one geocoding call, and none is issued
    otherwise. *)
Theorem one_geocoding_call_per_generation
  (v : Version) (st : option string) (evs : list Event) :
  let w := run v (mount v st) evs in
  geo_searches (requests (log w)) = length (chains w).
Proof.
  set (P := fun w : World =>
              geo_searches (requests (log w)) = length (chains w)).
  assert (Hstep : forall w ev, P w -> P (step v w ev)).
  { intros w ev Hw. unfold P in *.
    destruct (step_cases v w ev) as [(s & -> & Hne & ->) | Hquiet].
    - destruct (reconcile_fields v (onQueryChange v s w))
        as (_ & _ & Hch & _ & Hlog & _).
      destruct (onQueryChange_log v s w) as (Klog & _ & _ & Klen).
      rewrite Hlog, Hch, Klog, Klen, requests_app, geo_searches_app, Hw.
      unfold effect_log.
      destruct v, (js_length s <? 2)%nat; reflexivity.
    - destruct (quiet_step v w ev Hquiet) as (_ & _ & _ & Hgeo & Hlen).
      now rewrite Hgeo, Hlen. }
  cbv zeta. apply (run_invariant v P Hstep).
  unfold mount. apply Hstep. unfold P.
  destruct (first_effect_run v st) as (_ & Hc & _ & Hr & _).
  cbv zeta in Hc, Hr. now rewrite Hc, Hr.
Qed.

Lemma flags_same_length (l l' : list Chain) :
  (forall k,
      option_map abort_flags (nth_error l' k) =
      option_map abort_flags (nth_error l k)) ->
  length l' = length l.
Proof.
  intros Hflags.
  assert (Hnone : forall k, nth_error l' k = None <-> nth_error l k = None).
  { intros k. specialize (Hflags k).
    destruct (nth_error l' k), (nth_error l k);
      try discriminate Hflags; split; congruence. }
  destruct (Nat.lt_trichotomy (length l') (length l)) as [Hlt | [Heq | Hgt]].
  - exfalso. pose proof (proj1 (Hnone (length l'))) as H.
    rewrite !nth_error_None in H. specialize (H (Nat.le_refl _)). lia.
  - exact Heq.
  - exfalso. pose proof (proj2 (Hnone (length l))) as H.
    rewrite !nth_error_None in H. specialize (H (Nat.le_refl _)). lia.
Qed.

Lemma one_live_generation_transfer (w w' : World) :
  cleanup w' = cleanup w ->
  (forall k,
      option_map abort_flags (nth_error (chains w') k) =
      option_map abort_flags (nth_error (chains w) k)) ->
  one_live_generation w -> one_live_generation w'.
Proof.
  intros Hcl Hflags Hinv g c' Hc'.
  pose proof (flags_same_length _ _ Hflags) as Hlen.
  specialize (Hflags g). rewrite Hc' in Hflags. cbn [option_map] in Hflags.
  destruct (nth_error (chains w) g) as [c |] eqn:Hc; [| discriminate Hflags].
  cbn [option_map] in Hflags.
  assert (E : abort_flags c' = abort_flags c) by congruence.
  unfold current. rewrite E, Hcl, Hlen. exact (Hinv g c Hc).
Qed.

Lemma one_live_generation_superseded (w : World) :
  one_live_generation w -> superseded_aborted w.
Proof.
  intros Hinv g c Hc Hcur.
  destruct (Hinv g c Hc) as [H | (_ & H & _)]; [exact H | contradiction].
Qed.

Lemma effect_one_live_generation (v : Version) (w : World) :
  (forall g c, nth_error (chains w) g = Some c ->
               abort_flags c = (true, true)) ->
  one_live_generation (effect v w).
Proof.
  intros Hall g c. unfold effect, current.
  destruct v;
    cbn [search localStorage_setItem set_log String.eqb Ascii.eqb Bool.eqb
           set_storage];
    destruct (js_length (search w) <? 2)%nat;
    cbn [chains cleanup set_cleanup setWeather set_weather setError set_error
           fetchWeatherData set_chains fetch set_log setIsLoading
           set_isLoading set_storage localStorage_setItem String.eqb
           Ascii.eqb Bool.eqb search log];
    intros Hc;
    try (left; apply (Hall g c Hc));
    (destruct (Nat.lt_ge_cases g (length (chains w))) as [Hlt | Hge];
     [ rewrite nth_error_app1 in Hc by assumption; left; apply (Hall g c Hc)
     | rewrite nth_error_app2 in Hc by assumption;
       destruct (g - length (chains w))%nat as [| k] eqn:Hk;
       [ cbn in Hc; injection Hc as <-; right;
         rewrite length_app; cbn;
         repeat split; [f_equal; lia | lia]
       | destruct k; discriminate Hc ] ]).
Qed.

Lemma step_one_live_generation (v : Version) (w : World) (ev : Event) :
  one_live_generation w -> one_live_generation (step v w ev).
Proof.
  intros Hinv. unfold step.
  match goal with
  | |- one_live_generation (reconcile v ?w0) =>
      destruct (reconcile_fields v w0) as (_ & _ & Hch & Hcl & _);
      apply (one_live_generation_transfer w0);
        [exact Hcl | intros k; now rewrite Hch |]
  end.
  destruct ev as [s | g x | la ln | g x].
  - destruct (String.eqb s (search w)); [exact Hinv |].
    unfold onQueryChange. apply effect_one_live_generation.
    apply run_cleanup_aborts. intros g c Hc Hcur.
    apply (one_live_generation_superseded w Hinv g c Hc Hcur).
  - destruct (resume_flags g x w) as [Hcl' Hfl].
    now apply (one_live_generation_transfer w).
  - destruct (setPosition_fields la ln w) as [Hch' Hcl'].
    apply (one_live_generation_transfer w); [exact Hcl' | | exact Hinv].
    intros k. now rewrite Hch'.
  - destruct (local_resume_fields g x w) as [Hch' Hcl'].
    apply (one_live_generation_transfer w); [exact Hcl' | | exact Hinv].
    intros k. now rewrite Hch'.
Qed.

(** X16. After mounting and any sequence of events, at most one chain has
    controllers that are not aborted.  That chain is the current
    generation and the one started last, and neither of its controllers
    is aborted; every other chain has both controllers aborted. *)
Theorem at_most_one_live_generation
  (v : Version) (st : option string) (evs : list Event) :
  let w := run v (mount v st) evs in
  one_live_generation w
  /\ forall g g' c c',
      nth_error (chains w) g = Some c ->
      nth_error (chains w) g' = Some c' ->
      abort_flags c <> (true, true) ->
      abort_flags c' <> (true, true) ->
      g = g'.
Proof.
  cbv zeta.
  assert (Hinv : one_live_generation (run v (mount v st) evs)).
  { apply (run_invariant v one_live_generation
             (fun w ev => step_one_live_generation v w ev)).
    unfold mount. apply step_one_live_generation.
    match goal with
    | |- one_live_generation (reconcile v ?w0) =>
        destruct (reconcile_fields v w0) as (_ & _ & Hch & Hcl & _);
        apply (one_live_generation_transfer w0);
          [exact Hcl | intros k; now rewrite Hch |]
    end.
    apply effect_one_live_generation.
    intros g c Hc. destruct g; discriminate Hc. }
  split; [exact Hinv |].
  intros g g' c c' Hc Hc' Hlive Hlive'.
  destruct (Hinv g c Hc) as [H | (_ & _ & Hg)]; [contradiction |].
  destruct (Hinv g' c' Hc') as [H | (_ & _ & Hg')]; [contradiction |].
  lia.
Qed.

(** ** Further properties of [LocalWeather] *)

Lemma reconcile_lchains (v : Version) (w : World) :
  lchains (reconcile v w) = lchains w.
Proof.
  unfold reconcile.
  destruct (localWeatherButton (render v w)); [destruct (localWeather w) |];
    reflexivity.
Qed.

Lemma local_step_fields (v : Version) (w : World) (g : nat) (x : Settled) :
  let w' := step v w (LocalSettle g x) in
  lchains w' = lchains (local_resume g x w)
  /\ outcome w' = outcome (local_resume g x w)
  /\ isLoading w' = isLoading (local_resume g x w)
  /\ log w' = log (local_resume g x w).
Proof.
  unfold step.
  destruct (reconcile_fields v (local_resume g x w))
    as (Ho & Hl & _ & _ & Hlog & _).
  repeat split; try assumption. apply reconcile_lchains.
Qed.

Lemma lgoto_nth (g : nat) (p : LPc) (w : World) (c : LChain) :
  nth_error (lchains w) g = Some c ->
  nth_error (lchains (lgoto g p w)) g = Some (set_lpc p c).
Proof.
  intros Hc. unfold lgoto. cbn [lchains set_lchains].
  now rewrite nth_error_update_nth, Nat.eqb_refl, Hc.
Qed.

Lemma local_catch_finally_outcome
  (g i : nat) (err : JsError) (w : World) (c : LChain) :
  nth_error (lchains w) g = Some c ->
  let w' := local_catch_finally g i err w in
  outcome w' = (weather w, displayLocation w, err_message err)
  /\ isLoading w' = isLoading w
  /\ log w' = log w
  /\ nth_error (lchains w') g = Some (set_lpc LFinished c).
Proof.
  intros Hc w'. subst w'. unfold local_catch_finally.
  local_flag i false (setError (err_message err) w).
  cbn [weather displayLocation error log lchains isLoading setError set_error]
    in Fw, Fd, Fe, Flog, Flch, Fload.
  unfold outcome.
  cbn [weather displayLocation error log isLoading lgoto set_lchains].
  rewrite Fw, Fd, Fe, Flog, Fload. repeat split.
  apply lgoto_nth. now rewrite Flch.
Qed.

(** X17. A position without coordinates, or with a latitude or a longitude
    of zero, starts no current-location chain: [getCurrentPosition]
    returns at once, issues no call, and leaves the forecast, the display
    location and the error as they are. *)
Theorem no_chain_without_coordinates
  (la ln : option number) (w : World) :
  falsy_number la || falsy_number ln = true ->
  let w' := step V1 w (SetPosition la ln) in
  lchains w' = lchains w
  /\ log w' = log w
  /\ outcome w' = outcome w
  /\ isLoading w' = isLoading w.
Proof.
  intros Hfalsy w'. subst w'. unfold step.
  destruct (reconcile_fields V1 (setPosition la ln w))
    as (Ho & Hl & _ & _ & Hlog & _).
  rewrite reconcile_lchains, Ho, Hl, Hlog.
  unfold setPosition.
  destruct (localWeather w) as [inst |]; [| repeat split].
  destruct (same_number (lat inst) la && same_number (lng inst) ln);
    [repeat split |].
  unfold getCurrentPosition. cbn [lat lng]. rewrite Hfalsy. repeat split.
Qed.

Lemma no_chain_without_coordinates_witness :
  falsy_number (Some 0%Q) || falsy_number (Some 13.405%Q) = true
  /\ let w' := step V1 (mount V1 None) (SetPosition (Some 0%Q) (Some 13.405%Q)) in
     lchains w' = lchains (mount V1 None)
     /\ log w' = log (mount V1 None)
     /\ outcome w' = outcome (mount V1 None)
     /\ isLoading w' = isLoading (mount V1 None).
Proof.
  split; [reflexivity |].
  apply (no_chain_without_coordinates (Some 0%Q) (Some 13.405%Q)
           (mount V1 None)).
  reflexivity.
Defined.

(** X18. When [LocalWeather] is mounted and gets a position whose latitude
    and longitude are both non-zero and differ from the ones it had, one
    current-location chain starts: the error is cleared, the timezone
    lookup for these coordinates is the one call issued, and the forecast
    and the display location are left as they are. *)
Theorem position_starts_chain
  (la ln : number) (w : World) (inst : LocalWeatherInst) :
  localWeather w = Some inst ->
  same_number (lat inst) (Some la) && same_number (lng inst) (Some ln) = false ->
  Qeq_bool la 0 = false ->
  Qeq_bool ln 0 = false ->
  let w' := step V1 w (SetPosition (Some la) (Some ln)) in
  lchains w' =
    (lchains w ++ [{| l_inst := inst_id inst; l_lat := la; l_lng := ln;
                      lpc := AwaitTimezoneRes |}])%list
  /\ log w' = (log w ++ [Fetch (TimeByCoordinate la ln)])%list
  /\ outcome w' = (weather w, displayLocation w, "").
Proof.
  intros Hinst Hdeps Hla Hln w'. subst w'. unfold step.
  destruct (reconcile_fields V1 (setPosition (Some la) (Some ln) w))
    as (Ho & _ & _ & _ & Hlog & _).
  rewrite reconcile_lchains, Ho, Hlog.
  unfold setPosition. rewrite Hinst, Hdeps.
  unfold getCurrentPosition. cbn [lat lng inst_id falsy_number].
  rewrite Hla, Hln. cbn [orb].
  match goal with
  | |- context [setLocalIsLoading ?i ?b ?w0] => local_flag i b w0
  end.
  unfold outcome.
  cbn [lchains log weather displayLocation error set_lchains fetch set_log].
  rewrite Flch, Flog, Fw, Fd, Fe. repeat split.
Qed.

Lemma position_starts_chain_witness :
  let w := mount V1 None in
  let inst := {| inst_id := 0%nat; l_isLoading := false;
                 lat := None; lng := None |} in
  localWeather w = Some inst
  /\ let w' := step V1 w (SetPosition (Some 52.52%Q) (Some 13.405%Q)) in
     lchains w' =
       (lchains w ++ [{| l_inst := 0%nat; l_lat := 52.52%Q; l_lng := 13.405%Q;
                         lpc := AwaitTimezoneRes |}])%list
     /\ log w' =
        (log w ++ [Fetch (TimeByCoordinate 52.52%Q 13.405%Q)])%list
     /\ outcome w' = (weather w, displayLocation w, "").
Proof.
  cbv zeta. split; [reflexivity |].
  apply (position_starts_chain 52.52%Q 13.405%Q (mount V1 None)
           {| inst_id := 0%nat; l_isLoading := false;
              lat := None; lng := None |}); reflexivity.
Defined.

(** X19. The current-location chain shows every rejection: whatever is
    thrown while the chain is under way, an [AbortError] included, its
    message becomes the error, the chain ends, and the forecast and the
    display location stay as they are. *)
Theorem current_location_rejection
  (w : World) (g : nat) (c : LChain) (err : JsError) :
  nth_error (lchains w) g = Some c ->
  lpc c <> LFinished ->
  let w' := step V1 w (LocalSettle g (Rejected err)) in
  outcome w' = (weather w, displayLocation w, err_message err)
  /\ log w' = log w
  /\ option_map lpc (nth_error (lchains w') g) = Some LFinished.
Proof.
  intros Hc Hpc w'. subst w'.
  destruct (local_step_fields V1 w g (Rejected err)) as (Hch & Ho & _ & Hlog).
  cbv zeta in Hch, Ho, Hlog. rewrite Hch, Ho, Hlog.
  assert (R : local_resume g (Rejected err) w =
              local_catch_finally g (l_inst c) err w).
  { unfold local_resume. rewrite Hc. cbv zeta.
    destruct (lpc c); try reflexivity. contradiction. }
  rewrite R.
  destruct (local_catch_finally_outcome g (l_inst c) err w c Hc)
    as (Ko & _ & Klog & Kn).
  rewrite Ko, Klog, Kn. repeat split.
Qed.

Lemma current_location_rejection_witness :
  let w := located_then_typed in
  let c := {| l_inst := 0%nat; l_lat := 52.52%Q; l_lng := 13.405%Q;
              lpc := AwaitTimezoneRes |} in
  nth_error (lchains w) 0 = Some c
  /\ let w' := step V1 w (LocalSettle 0 (Rejected (AbortError "aborted"))) in
     outcome w' = (weather w, displayLocation w, "aborted")
     /\ log w' = log w
     /\ option_map lpc (nth_error (lchains w') 0) = Some LFinished.
Proof.
  cbv zeta. split; [reflexivity |].
  apply (current_location_rejection located_then_typed 0
           {| l_inst := 0%nat; l_lat := 52.52%Q; l_lng := 13.405%Q;
              lpc := AwaitTimezoneRes |} (AbortError "aborted"));
    [reflexivity | discriminate].
Defined.

(** X20. A response of the current-location chain whose status is not a
    success ends the chain with the message of its lookup: the timezone
    lookup, the reverse lookup of the place name, or the forecast.  No
    further call is issued, and the forecast and the display location
    stay as they are. *)
Theorem current_location_failed_status (w : World) (g : nat) (c : LChain) :
  nth_error (lchains w) g = Some c ->
  let w' := step V1 w (LocalSettle g not_ok) in
  (lpc c = AwaitTimezoneRes ->
   error w' = "Something went wrong with fetching the current timezone")
  /\ ((exists tz, lpc c = AwaitLocationNameRes tz) ->
      error w' =
      "Something went wrong with fetching the current location data")
  /\ (lpc c = AwaitLocalWeatherRes ->
      error w' = "Something went wrong with fetching weather")
  /\ ((lpc c = AwaitTimezoneRes \/ (exists tz, lpc c = AwaitLocationNameRes tz)
       \/ lpc c = AwaitLocalWeatherRes) ->
      weather w' = weather w
      /\ displayLocation w' = displayLocation w
      /\ log w' = log w
      /\ option_map lpc (nth_error (lchains w') g) = Some LFinished).
Proof.
  intros Hc w'. subst w'.
  destruct (local_step_fields V1 w g not_ok) as (Hch & Ho & _ & Hlog).
  cbv zeta in Hch, Ho, Hlog. unfold outcome in Ho. injection Ho as Hw Hd He.
  rewrite Hch, Hw, Hd, He, Hlog.
  assert (Hfail : forall msg,
             local_resume g not_ok w =
               local_catch_finally g (l_inst c) (Error msg) w ->
             error (local_resume g not_ok w) = msg
             /\ weather (local_resume g not_ok w) = weather w
             /\ displayLocation (local_resume g not_ok w) = displayLocation w
             /\ log (local_resume g not_ok w) = log w
             /\ option_map lpc
                  (nth_error (lchains (local_resume g not_ok w)) g)
                = Some LFinished).
  { intros msg ->.
    destruct (local_catch_finally_outcome g (l_inst c) (Error msg) w c Hc)
      as (Ko & _ & Klog & Kn).
    cbv zeta in Ko, Klog, Kn. unfold outcome in Ko.
    set (wf := local_catch_finally g (l_inst c) (Error msg) w) in *.
    rewrite Klog, Kn. cbn [err_message Error] in Ko.
    repeat split; congruence. }
  assert (H1 : lpc c = AwaitTimezoneRes ->
               local_resume g not_ok w =
               local_catch_finally g (l_inst c)
                 (Error "Something went wrong with fetching the current timezone")
                 w).
  { intros Hpc. unfold local_resume, not_ok. now rewrite Hc, Hpc. }
  assert (H2 : forall tz, lpc c = AwaitLocationNameRes tz ->
               local_resume g not_ok w =
               local_catch_finally g (l_inst c)
                 (Error
                    "Something went wrong with fetching the current location data")
                 w).
  { intros tz Hpc. unfold local_resume, not_ok. now rewrite Hc, Hpc. }
  assert (H3 : lpc c = AwaitLocalWeatherRes ->
               local_resume g not_ok w =
               local_catch_finally g (l_inst c)
                 (Error "Something went wrong with fetching weather") w).
  { intros Hpc. unfold local_resume, not_ok. now rewrite Hc, Hpc. }
  split; [intros Hpc; apply (Hfail _ (H1 Hpc)) |].
  split; [intros [tz Hpc]; apply (Hfail _ (H2 tz Hpc)) |].
  split; [intros Hpc; apply (Hfail _ (H3 Hpc)) |].
  intros [Hpc | [[tz Hpc] | Hpc]].
  - apply (Hfail _ (H1 Hpc)).
  - apply (Hfail _ (H2 tz Hpc)).
  - apply (Hfail _ (H3 Hpc)).
Qed.

Lemma current_location_failed_status_witness :
  let w := located_then_typed in
  let w' := step V1 w (LocalSettle 0 not_ok) in
  nth_error (lchains w) 0 =
    Some {| l_inst := 0%nat; l_lat := 52.52%Q; l_lng := 13.405%Q;
            lpc := AwaitTimezoneRes |}
  /\ error w' = "Something went wrong with fetching the current timezone"
  /\ log w' = log w.
Proof.
  cbv zeta. split; [reflexivity |].
  pose proof (current_location_failed_status located_then_typed 0
                {| l_inst := 0%nat; l_lat := 52.52%Q; l_lng := 13.405%Q;
                   lpc := AwaitTimezoneRes |} eq_refl) as H.
  cbv zeta in H. destruct H as (H1 & _ & _ & H4).
  split; [apply H1; reflexivity |].
  apply (H4 (or_introl eq_refl)).
Defined.



(** X23. When the place-name body has no address, or the timezone body no
    country code ([undefined] or [null]), building the display location
    throws a [TypeError]: the current-location chain ends with the message
    of that error shown, no forecast call issued, and the forecast and the
    display location as they were. *)
Theorem current_location_missing_field
  (w : World) (g : nat) (c : LChain)
  (tz : TimezoneData) (nm : LocationNameData) :
  nth_error (lchains w) g = Some c ->
  lpc c = AwaitLocationNameData tz ->
  (address nm = Undefined \/ address nm = Null
   \/ countryCode tz = Undefined \/ countryCode tz = Null) ->
  let w' := step V1 w (LocalSettle g (Fulfilled (LocationNameJson nm))) in
  error w' <> ""
  /\ errorMessage (render V1 w') = Some (error w')
  /\ (address nm = Undefined ->
      error w' = "Cannot read properties of undefined (reading 'town')")
  /\ weather w' = weather w
  /\ displayLocation w' = displayLocation w
  /\ log w' = log w
  /\ option_map lpc (nth_error (lchains w') g) = Some LFinished.
Proof.
  intros Hc Hpc Hmissing w'. subst w'.
  set (x := Fulfilled (LocationNameJson nm)).
  assert (R : exists err,
             local_resume g x w = local_catch_finally g (l_inst c) err w
             /\ err_message err <> ""
             /\ (address nm = Undefined ->
                 err_message err =
                 "Cannot read properties of undefined (reading 'town')")).
  { unfold local_resume, x. rewrite Hc, Hpc. cbv zeta.
    unfold place_name.
    destruct (address nm) as [| | a] eqn:Ha.
    - eexists. split; [reflexivity |]. split; [discriminate | reflexivity].
    - eexists. split; [reflexivity |]. split; [discriminate | discriminate].
    - destruct Hmissing as [H | [H | [H | H]]]; try discriminate H;
        rewrite H; cbn [call_convertToFlag];
        eexists; (split; [reflexivity |]); split; discriminate. }
  destruct R as (err & R & Hne & Hmsg).
  destruct (local_step_fields V1 w g x) as (C & O & _ & G).
  cbv zeta in C, O, G. rewrite R in C, O, G.
  destruct (local_catch_finally_outcome g (l_inst c) err w c Hc)
    as (Ko & _ & Klog & Kn).
  cbv zeta in Ko, Klog, Kn.
  set (wf := local_catch_finally g (l_inst c) err w) in *.
  set (w' := step V1 w (LocalSettle g x)) in *.
  unfold outcome in O, Ko.
  assert (E : error w' = err_message err) by congruence.
  repeat split; try congruence.
  - unfold render, truthy. cbn [errorMessage]. rewrite E.
    apply String.eqb_neq in Hne. now rewrite Hne.
  - intros Ha. rewrite E. now apply Hmsg.
  - rewrite C, Kn. reflexivity.
Qed.

Lemma current_location_missing_field_witness :
  let w := run V1 located_then_typed
               [LocalSettle 0 ok; LocalSettle 0 (Fulfilled (TimezoneJson berlin_tz));
                LocalSettle 0 ok] in
  let nm := {| address := Undefined |} in
  let w' := step V1 w (LocalSettle 0 (Fulfilled (LocationNameJson nm))) in
  nth_error (lchains w) 0 =
    Some {| l_inst := 0%nat; l_lat := 52.52%Q; l_lng := 13.405%Q;
            lpc := AwaitLocationNameData berlin_tz |}
  /\ error w' = "Cannot read properties of undefined (reading 'town')"
  /\ log w' = log w.
Proof.
  cbv zeta. split; [reflexivity |].
  pose proof (current_location_missing_field
                (run V1 located_then_typed
                     [LocalSettle 0 ok;
                      LocalSettle 0 (Fulfilled (TimezoneJson berlin_tz));
                      LocalSettle 0 ok]) 0
                {| l_inst := 0%nat; l_lat := 52.52%Q; l_lng := 13.405%Q;
                   lpc := AwaitLocationNameData berlin_tz |}
                berlin_tz {| address := Undefined |}
                eq_refl eq_refl (or_introl eq_refl)) as H.
  cbv zeta in H. destruct H as (_ & _ & He & _ & _ & Hlog & _).
  split; [apply He; reflexivity | exact Hlog].
Defined.

(** ** Cancelled chains and the error *)

Lemma superseded_settlement_outcome
  (v : Version) (w : World) (g : nat) (x : Settled) :
  superseded_aborted w ->
  current w <> Some g ->
  abort_observed w g x = true ->
  outcome (step v w (Settle g x)) = outcome w.
Proof.
  intros Hinv Hcur Hobs. unfold step.
  rewrite (proj1 (reconcile_fields v (resume g x w))).
  unfold abort_observed in Hobs.
  destruct (nth_error (chains w) g) as [c |] eqn:Hc.
  - pose proof (Hinv g c Hc Hcur) as Hflags. unfold abort_flags in Hflags.
    assert (Hgeo : geoAborted c = true) by congruence.
    assert (Hweather : weatherAborted c = true) by congruence.
    unfold pending_aborted in Hobs.
    destruct (pc c) eqn:Hpc;
      try (rewrite ?Hgeo, ?Hweather in Hobs;
           now apply abort_keeps_outcome).
    unfold resume. now rewrite Hc, Hpc.
  - unfold resume. now rewrite Hc.
Qed.

Lemma cancelled_settlements_keep_error
  (v : Version) (l : list (nat * Settled)) :
  forall w,
    superseded_aborted w ->
    cancelled_settlements v w l ->
    error (run v w (settle_all l)) = error w.
Proof.
  induction l as [| [g x] rest IH]; intros w Hinv Hl; [reflexivity |].
  cbn [cancelled_settlements fst snd] in Hl.
  destruct Hl as (Hcur & Hobs & Hrest).
  unfold run in *. cbn [settle_all map fold_left fst snd].
  fold (settle_all rest).
  rewrite (IH (step v w (Settle g x)));
    [| now apply step_superseded_aborted | exact Hrest].
  pose proof (superseded_settlement_outcome v w g x Hinv Hcur Hobs) as Ho.
  unfold outcome in Ho. congruence.
Qed.

(** C3, as the code has it.  In a state reached from mounting [App], a
    change of the query cancels every chain there is: each has both its
    controllers aborted and is not the current generation.  The error
    message is then empty, and it stays empty, with no error rendered,
    through any settlements of cancelled chains that observe the abort
    (the awaited call is rejected with an [AbortError]). *)
Theorem cancelled_chain_abort_no_error
  (v : Version) (st : option string) (evs : list Event) (s : string)
  (l : list (nat * Settled)) :
  let w := run v (mount v st) evs in
  let w1 := step v w (SetSearch s) in
  let w2 := run v w1 (settle_all l) in
  s <> search w ->
  cancelled_settlements v w1 l ->
  (forall g c,
      nth_error (chains w) g = Some c ->
      current w1 <> Some g
      /\ exists c',
          nth_error (chains w1) g = Some c'
          /\ abort_flags c' = (true, true))
  /\ error w1 = ""
  /\ error w2 = ""
  /\ errorMessage (render v w2) = None.
Proof.
  intros w w1 w2 Hne Hl.
  assert (Hinv : superseded_aborted w).
  { apply run_superseded_aborted, mount_superseded_aborted. }
  assert (Hinv1 : superseded_aborted w1).
  { now apply step_superseded_aborted. }
  assert (Hw1 : w1 = reconcile v (onQueryChange v s w)).
  { subst w1. unfold step. apply String.eqb_neq in Hne. now rewrite Hne. }
  destruct (reconcile_fields v (onQueryChange v s w))
    as (Ho & _ & Hch & Hcl & _).
  rewrite <- Hw1 in Ho, Hch, Hcl.
  assert (H1 : error w1 = "").
  { unfold outcome in Ho.
    pose proof (onQueryChange_clears_error v s w). congruence. }
  assert (H2 : error w2 = "").
  { subst w2. now rewrite cancelled_settlements_keep_error. }
  split; [| split; [exact H1 | split; [exact H2 |]]].
  - intros g c Hc.
    assert (Hlt : (g < length (chains w))%nat).
    { apply nth_error_Some. congruence. }
    assert (Hcur : current w1 <> Some g).
    { unfold current. rewrite Hcl.
      destruct (Nat.ltb_spec (js_length s) 2) as [Hshort | Hlong].
      - destruct (onQueryChange_short v s w Hshort) as (_ & _ & _ & K & _).
        rewrite K. discriminate.
      - destruct (onQueryChange_long v s w Hlong) as (_ & _ & K & _).
        unfold current in K. rewrite K. intros [= E]. lia. }
    split; [exact Hcur |].
    assert (Hlen : (length (chains w) <= length (chains w1))%nat).
    { rewrite Hch. unfold onQueryChange.
      destruct (effect_chains v (run_cleanup (set_search s w))) as [added ->].
      rewrite length_app.
      destruct (run_cleanup_fields (set_search s w))
        as (_ & _ & _ & _ & _ & K & _).
      cbn [chains set_search] in K. lia. }
    destruct (nth_error (chains w1) g) as [c' |] eqn:Hc';
      [| apply nth_error_None in Hc'; lia].
    exists c'. split; [reflexivity |]. exact (Hinv1 g c' Hc' Hcur).
  - cbn [render errorMessage]. now rewrite H2.
Qed.

Lemma cancelled_chain_abort_no_error_witness :
  let w := run V1 (mount V1 (Some "Pa")) [Settle 0 ok] in
  let w1 := step V1 w (SetSearch "Paris") in
  let l := [(0%nat, Rejected (AbortError "The user aborted a request."))] in
  let w2 := run V1 w1 (settle_all l) in
  "Paris" <> search w
  /\ cancelled_settlements V1 w1 l
  /\ (forall g c,
         nth_error (chains w) g = Some c ->
         current w1 <> Some g
         /\ exists c',
             nth_error (chains w1) g = Some c'
             /\ abort_flags c' = (true, true))
  /\ error w1 = ""
  /\ error w2 = ""
  /\ errorMessage (render V1 w2) = None.
Proof.
  cbv zeta.
  assert (Hne : "Paris" <>
                search (run V1 (mount V1 (Some "Pa")) [Settle 0 ok]))
    by (vm_compute; discriminate).
  assert (Hl : cancelled_settlements V1
                 (step V1 (run V1 (mount V1 (Some "Pa")) [Settle 0 ok])
                       (SetSearch "Paris"))
                 [(0%nat, Rejected (AbortError "The user aborted a request."))]).
  { cbn [cancelled_settlements fst snd].
    split; [vm_compute; discriminate |]. split; [reflexivity | exact I]. }
  split; [exact Hne |]. split; [exact Hl |].
  apply (cancelled_chain_abort_no_error V1 (Some "Pa") [Settle 0 ok] "Paris"
           [(0%nat, Rejected (AbortError "The user aborted a request."))]
           Hne Hl).
Defined.

(** C3 as stated fails.  The query is ["Pa"], its chain has the geocoding
    response and reads the body; the query becomes ["Paris"], which aborts
    both controllers of generation 0 and makes generation 1 the current
    one.  When the body read of the cancelled generation is then fulfilled
    with a body without results, line 68 throws, the catch finds a name
    other than [AbortError], and the error ["Location not found"] is
    stored and rendered. *)
Lemma cancelled_chain_sets_error :
  let w := run V1 (mount V1 (Some "Pa")) [Settle 0 ok; SetSearch "Paris"] in
  let w' := step V1 w (Settle 0 (Fulfilled (GeoJson {| results := None |}))) in
  current w = Some 1%nat
  /\ option_map abort_flags (nth_error (chains w) 0) = Some (true, true)
  /\ option_map pc (nth_error (chains w) 0) = Some AwaitGeoData
  /\ error w = ""
  /\ error w' = "Location not found"
  /\ error w' <> ""
  /\ errorMessage (render V1 w') = Some "Location not found".
Proof.
  cbv zeta. repeat split; try reflexivity. vm_compute. discriminate.
Qed.
